(** * command.py: grammar compiler, argument matcher, command matcher, dispatcher

    A shallow embedding of the parsing core of [command.py] and the
    properties of its specification.

    Conventions of the embedding.
    - A Python [str] is a [string]; characters are the code points below 256.
    - A Python [int] is a [Z].
    - An exception of the [_ParsingError] family is a value of [ParsingError];
      a call that may raise one returns a sum, [inl] for the returned value.
    - The mutable attributes of a [_Wrapper] are fields of the record
      [Wrapper]; a method that mutates [self] returns the new record.
    - A handler is a function of the application instance (an abstract type
      [Ctx]) and of the resolved arguments; it returns the new instance and
      the [_ParsingError] it raised, if any.  A handler that calls [resolve]
      itself is outside the model.
    - Fields named [g_...] are ghost fields: they record what happened
      (what was passed to [_log_exception], what the handler was called
      with) and no source expression reads them. *)

From Stdlib Require Import String Ascii List ZArith Lia Bool Arith.
From Stdlib Require Import Sorted Permutation.
Import ListNotations.

Open Scope string_scope.
Open Scope Z_scope.

(** ** Python string primitives *)

Module Py.

(** Truth value of a [str]: nonempty. *)
Definition truthy (s : string) : bool :=
  match s with
  | EmptyString => false
  | String _ _ => true
  end.

(** [s[0]] and [s[-1]] of a nonempty string ([None] on the empty one). *)
Definition first (s : string) : option ascii :=
  match s with
  | EmptyString => None
  | String c _ => Some c
  end.

Fixpoint last (s : string) : option ascii :=
  match s with
  | EmptyString => None
  | String c EmptyString => Some c
  | String _ s' => last s'
  end.

(** [s[:-1]]. *)
Fixpoint drop_last (s : string) : string :=
  match s with
  | EmptyString => EmptyString
  | String _ EmptyString => EmptyString
  | String c s' => String c (drop_last s')
  end.

(** [s[1:-1]]. *)
Definition strip_ends (s : string) : string :=
  match s with
  | EmptyString => EmptyString
  | String _ s' => drop_last s'
  end.

(** The pieces of [s] between the characters satisfying [sep], empty
    pieces included; [cur] is the piece being read. *)
Fixpoint pieces (sep : ascii -> bool) (s : string) (cur : string)
  : list string :=
  match s with
  | EmptyString => [cur]
  | String c s' =>
      if sep c then cur :: pieces sep s' EmptyString
      else pieces sep s' (cur ++ String c EmptyString)
  end.

(** [s.split(c)] for a one-character separator. *)
Definition split_on (c : ascii) (s : string) : list string :=
  pieces (Ascii.eqb c) s EmptyString.

(** The characters below U+0100 that [str.split()] treats as white space:
    U+0009..U+000D, U+001C..U+0020, U+0085 and U+00A0. *)
Definition isspace (c : ascii) : bool :=
  let n := nat_of_ascii c in
  ((9 <=? n) && (n <=? 13) || (28 <=? n) && (n <=? 32)
   || (n =? 133) || (n =? 160))%nat.

(** [s.split()]: the nonempty pieces between runs of white space. *)
Definition split (s : string) : list string :=
  filter truthy (pieces isspace s EmptyString).

(** [sep.join(l)]. *)
Definition join (sep : string) (l : list string) : string :=
  String.concat sep l.

End Py.

(** ** Arguments, parts and parsing errors *)

(** [_Argument]: a string with the name of the free option it filled. *)
Record Argument := mkArgument {
  value : string;
  name : option string
}.

(** [_Argument()]. *)
Definition Argument_empty : Argument := mkArgument "" None.

(** [_Part]: [free_name] is [""] when the part has no free option. *)
Record Part := mkPart {
  _str : string;
  mandatory : bool;
  free_name : string;
  options : list string
}.

(** The classes of the [_ParsingError] family, with their attributes. *)
Inductive ErrorClass :=
| InvalidOption_ (part : Part) (value : string)
| MissingMandatory_ (part : Part)
| Redundant_ (value : string)
| InvalidSyntax_
| InvalidArgValue_ (argument : Argument) (reason : string)
| InvalidCommandValue_ (command : Argument) (reason : string).

Record ParsingError := mkError {
  class : ErrorClass;
  message : string;
  badness : Z
}.

Definition _INITIAL_BADNESS : Z := 10000.

Definition _InvalidOption (part : Part) (value : string) : ParsingError :=
  mkError (InvalidOption_ part value)
    ("Invalid option '" ++ value ++ "', must be one of '" ++ _str part ++ "'")
    3.

Definition _MissingMandatory (part : Part) : ParsingError :=
  mkError (MissingMandatory_ part)
    ("Missing mandatory argument '" ++ _str part ++ "'") 4.

Definition _Redundant (value : string) : ParsingError :=
  mkError (Redundant_ value) ("Redundant argument '" ++ value ++ "'") 4.

(** [f"{': ' if reason else ''}{reason}"]. *)
Definition with_reason (reason : string) : string :=
  (if Py.truthy reason then ": " else "") ++ reason.

Definition InvalidSyntax (argument : Argument) (reason : string)
  : ParsingError :=
  mkError InvalidSyntax_
    ("Invalid syntax at '" ++ value argument ++ "'" ++ with_reason reason) 4.

(** [f"{argument.name}"]: the name, or [None] printed. *)
Definition name_str (a : Argument) : string :=
  match name a with
  | Some n => n
  | None => "None"
  end.

Definition InvalidArgValue (argument : Argument) (reason : string)
  : ParsingError :=
  mkError (InvalidArgValue_ argument reason)
    ("Invalid value '" ++ value argument ++ "' of argument '"
       ++ name_str argument ++ "'" ++ with_reason reason) 1.

Definition InvalidCommandValue (command : Argument) (reason : string)
  : ParsingError :=
  mkError (InvalidCommandValue_ command reason)
    ("Invalid value '" ++ value command ++ "' of command '"
       ++ name_str command ++ "'" ++ with_reason reason) 2.

(** ** Grammar compiler: [_Part.__init__] and [Command.__init__] *)

(** [_Part._enclosed(string, enclose)], as a truth value. *)
Definition _enclosed (s : string) (open close : ascii) : bool :=
  Py.truthy s
  && match Py.first s, Py.last s with
     | Some a, Some b => Ascii.eqb a open && Ascii.eqb b close
     | _, _ => false
     end.

(** One step of the list comprehension of [_Part.__init__]: the state is
    [self.free_name] and the options kept so far.  An option that is not
    enclosed in [<>] is kept; an enclosed one is never kept, and sets
    [free_name] when that is still empty ([setattr] returns [None]). *)
Definition scan_option (st : string * list string) (opt : string)
  : string * list string :=
  let '(fname, kept) := st in
  if negb (_enclosed opt "<" ">") then (fname, (kept ++ [opt])%list)
  else if negb (Py.truthy fname) then (Py.strip_ends opt, kept)
  else (fname, kept).

Definition Part_init (part : string) : Part :=
  let mand := negb (_enclosed part "[" "]") in
  let body := if mand then part else Py.strip_ends part in
  let '(fname, kept) :=
    fold_left scan_option (Py.split_on "|" body) ("", []) in
  mkPart part mand fname kept.

(** [Command]: the command part, the argument parts and [_str]. *)
Record Command := mkCommand {
  command : Part;
  args : list Part;
  Command_str : string
}.

Definition Command_init (syntax : string) : Command :=
  let '(c, a) :=
    match Py.split syntax with
    | [] => ("", [])
    | c :: a => (c, a)
    end in
  let cp := Part_init c in
  let ap := map Part_init a in
  mkCommand cp ap
    (_str cp ++ String.concat "" (map (fun p => " " ++ _str p) ap)).

(** ** Argument matcher: [_Part.match] *)

Definition match_ (self : Part) (user_part : string)
  : Argument + ParsingError :=
  if in_dec string_dec user_part (options self) then
    inl (mkArgument user_part None)
  else if Py.truthy (free_name self) && Py.truthy user_part then
    inl (mkArgument user_part (Some (free_name self)))
  else if negb (mandatory self) then
    inl Argument_empty
  else
    inr (_InvalidOption self user_part).

(** ** Command matcher: [_Wrapper] *)

(** What a call of a wrapper does: [return True], [return False], or raise. *)
Inductive Outcome :=
| ReturnTrue
| ReturnFalse
| Raise (e : ParsingError).

(** [e.badness = b]. *)
Definition set_badness (e : ParsingError) (b : Z) : ParsingError :=
  mkError (class e) (message e) b.

(** The local variables of [_Wrapper.__call__] during the walk over the
    argument parts, with the two attributes of [self] that the walk
    mutates, and the ghost fields. *)
Record Frame := mkFrame {
  resolved_args : list Argument;
  user_arg : option string;
  user_args_index : nat;
  self_first_exception : option ParsingError;
  self_badness : Z;
  g_logged : list ParsingError; (* every argument of [_log_exception] *)
  g_matched : nat               (* how often "we have matched" was reached *)
}.

(** [_Wrapper._log_exception]. *)
Definition _log_exception (exception : ParsingError) (f : Frame) : Frame :=
  mkFrame (resolved_args f) (user_arg f) (user_args_index f)
    (match self_first_exception f with
     | None => Some exception
     | Some e0 =>
         Some (set_badness e0 (Z.max (badness e0) (badness exception)))
     end)
    (self_badness f)
    (g_logged f ++ [exception])
    (g_matched f).

(** [user_arg = user_args[user_args_index]; user_args_index += 1], done
    when [user_arg is None and user_args_index < len(user_args)]. *)
Definition pull (user_args : list string) (f : Frame) : Frame :=
  match user_arg f, nth_error user_args (user_args_index f) with
  | None, Some a =>
      mkFrame (resolved_args f) (Some a) (S (user_args_index f))
        (self_first_exception f) (self_badness f) (g_logged f) (g_matched f)
  | _, _ => f
  end.

(** [user_arg = None]. *)
Definition clear_user_arg (f : Frame) : Frame :=
  mkFrame (resolved_args f) None (user_args_index f)
    (self_first_exception f) (self_badness f) (g_logged f) (g_matched f).

(** [resolved_args.append(a)]. *)
Definition append_resolved (a : Argument) (f : Frame) : Frame :=
  mkFrame (resolved_args f ++ [a]) (user_arg f) (user_args_index f)
    (self_first_exception f) (self_badness f) (g_logged f) (g_matched f).

(** [user_arg = None; self._badness -= 1]. *)
Definition matched (f : Frame) : Frame :=
  mkFrame (resolved_args f) None (user_args_index f)
    (self_first_exception f) (self_badness f - 1) (g_logged f)
    (S (g_matched f)).

(** [user_arg or '']. *)
Definition or_empty (user_arg : option string) : string :=
  match user_arg with
  | Some a => a
  | None => ""
  end.

(** The [for part in self._args] loop. *)
Fixpoint walk (user_args : list string) (parts : list Part) (f : Frame)
  : Frame :=
  match parts with
  | [] => f
  | part :: rest =>
      let f1 := pull user_args f in
      match user_arg f1, mandatory part with
      | None, true => _log_exception (_MissingMandatory part) f1 (* break *)
      | _, _ =>
          match match_ part (or_empty (user_arg f1)) with
          | inr e =>
              walk user_args rest (clear_user_arg (_log_exception e f1))
          | inl a =>
              let f2 := append_resolved a f1 in
              walk user_args rest
                (if Py.truthy (value a) then matched f2 else f2)
          end
      end
  end.

(** The two tests after the loop. *)
Definition check_redundant (user_args : list string) (f : Frame) : Frame :=
  match user_arg f with
  | Some a => _log_exception (_Redundant a) f
  | None =>
      match nth_error user_args (user_args_index f) with
      | Some a => _log_exception (_Redundant a) f
      | None => f
      end
  end.

Section Matcher.

(** The application instance the handlers are bound to. *)
Variable Ctx : Type.

Definition Handler : Type :=
  Ctx -> list Argument -> Ctx * option ParsingError.

(** [_Wrapper]: the attributes used by [__call__]. *)
Record Wrapper := mkWrapper {
  _command : Part;
  _args : list Part;
  _handler : Handler;
  _syntax : string;
  _first_exception : option ParsingError;
  _badness : Z
}.

(** [_Wrapper.__init__] on the descriptor made of a [Command] and a
    handler. *)
Definition Wrapper_init (c : Command) (h : Handler) : Wrapper :=
  mkWrapper (command c) (args c) h (Command_str c) None _INITIAL_BADNESS.

(** [self._first_exception = x; self._badness = b]. *)
Definition set_state (w : Wrapper) (x : option ParsingError) (b : Z)
  : Wrapper :=
  mkWrapper (_command w) (_args w) (_handler w) (_syntax w) x b.

(** The result of [_Wrapper.__call__]: what it does, the wrapper and the
    application afterwards, and the ghost record of the attempt. *)
Record CallResult := mkCallResult {
  outcome : Outcome;
  self_after : Wrapper;
  ctx_after : Ctx;
  g_errors : list ParsingError;       (* arguments of [_log_exception] *)
  g_consumed : nat;                   (* argument tokens matched *)
  g_invoked : option (list Argument)  (* arguments given to the handler *)
}.

(** The frame at the start of the walk. *)
Definition start_frame (w : Wrapper) (resolved_command : Argument)
    (user_command : string) : Frame :=
  mkFrame
    (if Py.truthy (free_name (_command w)) || negb (mandatory (_command w))
     then [resolved_command] else [])
    None 0%nat
    None
    (if in_dec string_dec user_command (options (_command w))
     then _badness w - 3 else _badness w)
    [] 0%nat.

(** The frame after the walk and the two tests that follow it. *)
Definition parse (w : Wrapper) (resolved_command : Argument)
    (user_command : string) (user_args : list string) : Frame :=
  check_redundant user_args
    (walk user_args (_args w)
       (start_frame w resolved_command user_command)).

(** The handler step of [__call__]: when no error was logged, the
    handler is called on [resolved_args], and a [_ParsingError] it raises
    is logged.  The result is the frame and the application afterwards,
    and (ghost) the arguments the handler was called with. *)
Definition run_handler (w : Wrapper) (ctx : Ctx) (f : Frame)
  : Frame * Ctx * option (list Argument) :=
  match self_first_exception f with
  | None =>
      match _handler w ctx (resolved_args f) with
      | (c, None) => (f, c, Some (resolved_args f))
      | (c, Some e) => (_log_exception e f, c, Some (resolved_args f))
      end
  | Some _ => (f, ctx, None)
  end.

(** The end of [__call__]: when an error was logged, [self._badness] is
    added to its badness and it is raised; otherwise [True] is
    returned. *)
Definition conclude (w : Wrapper) (f : Frame) (ctx : Ctx)
    (invoked : option (list Argument)) : CallResult :=
  match self_first_exception f with
  | Some e =>
      let e' := set_badness e (badness e + self_badness f) in
      mkCallResult (Raise e') (set_state w (Some e') (self_badness f))
        ctx (g_logged f) (g_matched f) invoked
  | None =>
      mkCallResult ReturnTrue (set_state w None (self_badness f))
        ctx (g_logged f) (g_matched f) invoked
  end.

(** [_Wrapper.__call__(user_command, *user_args)]. *)
Definition call (w : Wrapper) (ctx : Ctx) (user_command : string)
    (user_args : list string) : CallResult :=
  (* self._first_exception = None *)
  match match_ (_command w) user_command with
  | inr _ =>
      mkCallResult ReturnFalse (set_state w None (_badness w)) ctx
        [] 0%nat None
  | inl resolved_command =>
      let '(f, ctx1, invoked) :=
        run_handler w ctx
          (parse w resolved_command user_command user_args) in
      conclude w f ctx1 invoked
  end.

End Matcher.

Arguments mkWrapper {Ctx}.
Arguments _command {Ctx}.
Arguments _args {Ctx}.
Arguments _handler {Ctx}.
Arguments _syntax {Ctx}.
Arguments _first_exception {Ctx}.
Arguments _badness {Ctx}.
Arguments Wrapper_init {Ctx}.
Arguments set_state {Ctx}.
Arguments mkCallResult {Ctx}.
Arguments outcome {Ctx}.
Arguments self_after {Ctx}.
Arguments ctx_after {Ctx}.
Arguments g_errors {Ctx}.
Arguments g_consumed {Ctx}.
Arguments g_invoked {Ctx}.
Arguments start_frame {Ctx}.
Arguments parse {Ctx}.
Arguments run_handler {Ctx}.
Arguments conclude {Ctx}.
Arguments call {Ctx}.

(** ** Dispatcher: [resolve] *)

(** The line feed character. *)
Definition LF : string := String (ascii_of_nat 10) EmptyString.

(** [exceptions.sort(key=lambda err: err.badness)]: a stable sort. *)
Fixpoint insert_by_badness (e : ParsingError) (l : list ParsingError)
  : list ParsingError :=
  match l with
  | [] => [e]
  | x :: l' =>
      if badness e <=? badness x then e :: l
      else x :: insert_by_badness e l'
  end.

Fixpoint sort_by_badness (l : list ParsingError) : list ParsingError :=
  match l with
  | [] => []
  | e :: l' => insert_by_badness e (sort_by_badness l')
  end.

(** The exceptions whose message was not seen before, in order. *)
Fixpoint first_of_each_message (seen : list string) (l : list ParsingError)
  : list ParsingError :=
  match l with
  | [] => []
  | e :: l' =>
      if in_dec string_dec (message e) seen
      then first_of_each_message seen l'
      else e :: first_of_each_message (message e :: seen) l'
  end.

(** [resolve._print_exceptions]: what it writes to the standard output. *)
Definition _print_exceptions (exceptions : list ParsingError) : list string :=
  let to_print := first_of_each_message [] (sort_by_badness exceptions) in
  let text :=
    Py.join (LF ++ "or  ") (map message to_print) ++ "." ++ LF ++ LF in
  if (1 <? length to_print)%nat then ["    "; text] else [text].

(** [user_input.split() or ['']], as the command and its arguments. *)
Definition tokenize (user_input : string) : string * list string :=
  match Py.split user_input with
  | [] => ("", [])
  | c :: a => (c, a)
  end.

Section Dispatcher.

Variable Ctx : Type.

(** The [for command_wrapper in command_list] loop: whether a wrapper
    returned [True], the wrappers and the application afterwards, the
    exceptions caught, and (ghost) the handlers that were called, each
    with its position in the list and its arguments. *)
Record Loop := mkLoop {
  returned : bool;
  wrappers : list (Wrapper Ctx);
  loop_ctx : Ctx;
  logged_exceptions : list ParsingError;
  g_calls : list (nat * list Argument)
}.

Definition g_call (pos : nat) (r : CallResult Ctx)
  : list (nat * list Argument) :=
  match g_invoked r with
  | Some a => [(pos, a)]
  | None => []
  end.

Fixpoint attempts (pos : nat) (command_list : list (Wrapper Ctx))
    (ctx : Ctx) (user_command : string) (user_args : list string) : Loop :=
  match command_list with
  | [] => mkLoop false [] ctx [] []
  | w :: rest =>
      let r := call w ctx user_command user_args in
      match outcome r with
      | ReturnTrue =>
          mkLoop true (self_after r :: rest) (ctx_after r) [] (g_call pos r)
      | ReturnFalse =>
          let l := attempts (S pos) rest (ctx_after r)
                     user_command user_args in
          mkLoop (returned l) (self_after r :: wrappers l) (loop_ctx l)
            (logged_exceptions l) (g_call pos r ++ g_calls l)
      | Raise e =>
          let l := attempts (S pos) rest (ctx_after r)
                     user_command user_args in
          mkLoop (returned l) (self_after r :: wrappers l) (loop_ctx l)
            (e :: logged_exceptions l) (g_call pos r ++ g_calls l)
      end
  end.

(** The state [resolve] works on: the command list, the application, the
    class attribute [resolve._help_search], what was written to the
    standard output by [resolve] itself, and (ghost) the handlers
    called. *)
Record World := mkWorld {
  command_list : list (Wrapper Ctx);
  app : Ctx;
  _help_search : bool;
  stdout : list string;
  g_handlers : list (nat * list Argument)
}.

(** [print(s)] for each [s], in order. *)
Definition write (out : list string) (w : World) : World :=
  mkWorld (command_list w) (app w) (_help_search w) (stdout w ++ out)
    (g_handlers w).

(** [cls._help_search = b]. *)
Definition set_help_search (b : bool) (w : World) : World :=
  mkWorld (command_list w) (app w) b (stdout w) (g_handlers w).

(** The world after the loop. *)
Definition after_loop (w : World) (l : Loop) : World :=
  mkWorld (wrappers l) (loop_ctx l) (_help_search w) (stdout w)
    (g_handlers w ++ g_calls l).

(** [resolve(command_list, user_input)]; [fuel] bounds the depth of the
    calls of [resolve], [None] means that the bound was reached. *)
Fixpoint resolve (fuel : nat) (w : World) (user_input : string)
  : option World :=
  match fuel with
  | O => None
  | S fuel' =>
      let '(user_command, user_args) := tokenize user_input in
      let l := attempts 0 (command_list w) (app w)
                 user_command user_args in
      let w1 := after_loop w l in
      let help (w2 : World) : option World :=
        match resolve fuel' (set_help_search true w2) "help" with
        | Some w3 => Some (set_help_search false w3)
        | None => None
        end in
      if returned l then Some w1
      else
        match logged_exceptions l with
        | _ :: _ =>
            if _help_search w1 then
              Some (write ["No additional help found." ++ LF] w1)
            else
              help (write (_print_exceptions (logged_exceptions l)) w1)
        | [] =>
            if _help_search w1 then
              Some (write ["No additional help found." ++ LF] w1)
            else if Py.truthy user_command then
              help (write ["Unknown command " ++ user_command ++ "." ++ LF;
                           LF] w1)
            else help w1
        end
  end.

End Dispatcher.

Arguments mkLoop {Ctx}.
Arguments returned {Ctx}.
Arguments wrappers {Ctx}.
Arguments loop_ctx {Ctx}.
Arguments logged_exceptions {Ctx}.
Arguments g_calls {Ctx}.
Arguments g_call {Ctx}.
Arguments attempts {Ctx}.
Arguments mkWorld {Ctx}.
Arguments command_list {Ctx}.
Arguments app {Ctx}.
Arguments _help_search {Ctx}.
Arguments stdout {Ctx}.
Arguments g_handlers {Ctx}.
Arguments write {Ctx}.
Arguments set_help_search {Ctx}.
Arguments after_loop {Ctx}.
Arguments resolve {Ctx}.

(** ** Quantities the properties are stated with *)

(** The largest base badness among [e] and [rest]. *)
Definition max_badness (e : ParsingError) (rest : list ParsingError) : Z :=
  fold_left Z.max (map badness rest) (badness e).

(** 1 when a user argument is held in [user_arg], else 0. *)
Definition buffered (f : Frame) : nat :=
  match user_arg f with
  | Some _ => 1%nat
  | None => 0%nat
  end.

(** How many user arguments were taken and given up again: those pulled,
    without the one still held. *)
Definition consumed_tokens (f : Frame) : nat :=
  (user_args_index f - buffered f)%nat.

(** The first user argument that was not consumed, if any. *)
Definition surplus (user_args : list string) (f : Frame) : option string :=
  nth_error user_args (consumed_tokens f).

Definition is_Redundant (e : ParsingError) : bool :=
  match class e with
  | Redundant_ _ => true
  | _ => false
  end.

(** The errors the walk itself logs. *)
Definition walk_error (e : ParsingError) : Prop :=
  (exists p v, e = _InvalidOption p v) \/ (exists p, e = _MissingMandatory p).

(** The errors logged before the handler step. *)
Definition walk_error_or_redundant (e : ParsingError) : Prop :=
  walk_error e \/ (exists t, e = _Redundant t).

(** The first-exception slot represents the log: it holds the first error
    logged, with the largest base badness of all errors logged. *)
Definition Rep (f : Frame) : Prop :=
  match g_logged f with
  | [] => self_first_exception f = None
  | e :: rest =>
      self_first_exception f = Some (set_badness e (max_badness e rest))
  end.

(** The same for the result of a call: what it does is decided by the
    errors logged. *)
Definition Rep_result {Ctx : Type} (r : CallResult Ctx) : Prop :=
  match g_errors r with
  | [] => outcome r = ReturnTrue
  | e :: rest =>
      outcome r
      = Raise (mkError (class e) (message e)
                 (max_badness e rest + _badness (self_after r)))
  end.

(** The invariant of the walk over [user_args], started with the badness
    [b0]. *)
Record Inv (user_args : list string) (b0 : Z) (f : Frame) : Prop := mkInv {
  inv_badness : self_badness f = b0 - Z.of_nat (g_matched f);
  inv_rep : Rep f;
  inv_low : (g_matched f + buffered f <= user_args_index f)%nat;
  inv_high : (user_args_index f <= length user_args)%nat;
  inv_exact :
    g_logged f = [] -> (g_matched f + buffered f = user_args_index f)%nat;
  inv_buffer :
    forall t, user_arg f = Some t ->
              nth_error user_args (pred (user_args_index f)) = Some t;
  inv_errors : Forall walk_error (g_logged f)
}.

(** The seed of [resolved_args]: the command's own value, if it carries
    information. *)
Definition seed (p : Part) (resolved_command : Argument) : list Argument :=
  if Py.truthy (free_name p) || negb (mandatory p)
  then [resolved_command] else [].

(** The context in which the wrapper at position [length pre] is called,
    when no wrapper of [pre] returned [True]. *)
Definition ctx_before {Ctx : Type} (pre : list (Wrapper Ctx)) (ctx : Ctx)
    (user_command : string) (user_args : list string) : Ctx :=
  fold_left (fun c w => ctx_after (call w c user_command user_args)) pre ctx.

(** A world in the state NORMAL or IN_FALLBACK. *)
Definition normal {Ctx : Type} (w : World Ctx) : Prop :=
  _help_search w = false.

Definition in_fallback {Ctx : Type} (w : World Ctx) : Prop :=
  _help_search w = true.

(** The value carries information: it is a nonempty string. *)
Definition carries (v : Argument) : bool := Py.truthy (value v).

(** The value is a result of [match] on the part. *)
Definition matches (p : Part) (v : Argument) : Prop :=
  exists t, match_ p t = inl v.

(** What [@Command(syntax)] on a handler, retrieved from the instance,
    gives: a fresh wrapper. *)
Definition bind {Ctx : Type} (syntax : string) (h : Handler Ctx)
  : Wrapper Ctx :=
  Wrapper_init (Command_init syntax) h.

(** A handler that returns normally. *)
Definition accept : Handler unit := fun c _ => (c, None).

(** A handler that rejects the value of its first argument. *)
Definition reject_value : Handler unit :=
  fun c l =>
    (c, match l with
        | a :: _ => Some (InvalidArgValue a "")
        | [] => None
        end).

(** What [resolve] writes before it looks for the help command. *)
Definition diagnostics {Ctx : Type} (l : Loop Ctx)
    (user_command : string) : list string :=
  match logged_exceptions l with
  | _ :: _ => _print_exceptions (logged_exceptions l)
  | [] =>
      if Py.truthy user_command
      then ["Unknown command " ++ user_command ++ "." ++ LF; LF]
      else []
  end.

(** The world in which [resolve] calls itself on ['help']. *)
Definition fallback_world {Ctx : Type} (w : World Ctx) (l : Loop Ctx)
    (user_command : string) : World Ctx :=
  mkWorld (wrappers l) (loop_ctx l) true
    (stdout w ++ diagnostics l user_command)%list
    (g_handlers w ++ g_calls l)%list.

(** ** Quantities for the tokenizer and the grammar compiler *)

(** Every character of the string satisfies [P]. *)
Fixpoint all_chars (P : ascii -> bool) (s : string) : bool :=
  match s with
  | EmptyString => true
  | String c s' => P c && all_chars P s'
  end.

(** The character is not white space. *)
Definition not_space (c : ascii) : bool := negb (Py.isspace c).

(** A token: a nonempty string without white space. *)
Definition is_token (t : string) : bool :=
  Py.truthy t && all_chars not_space t.

(** A blank line: nothing but white space. *)
Definition blank (s : string) : bool := all_chars Py.isspace s.

(** The alternatives of a part: its text, without the brackets of an
    optional part, split on [|]. *)
Definition alternatives (part : string) : list string :=
  Py.split_on "|"
    (if _enclosed part "[" "]" then Py.strip_ends part else part).

(** The alternative is written as a free option, [<NAME>]. *)
Definition is_free (opt : string) : bool := _enclosed opt "<" ">".

(** The alternative is a free option with a nonempty name. *)
Definition names_slot (opt : string) : bool :=
  is_free opt && Py.truthy (Py.strip_ends opt).

(** ** Quantities for the command matcher *)

(** The frame with [k] added to [self._badness]. *)
Definition shift (k : Z) (f : Frame) : Frame :=
  mkFrame (resolved_args f) (user_arg f) (user_args_index f)
    (self_first_exception f) (self_badness f + k) (g_logged f) (g_matched f).

(** What a call does, with [k] added to the badness of a raised error. *)
Definition shift_outcome (k : Z) (o : Outcome) : Outcome :=
  match o with
  | Raise e => Raise (set_badness e (badness e + k))
  | _ => o
  end.

(** Two wrappers of the same command: they differ at most in the error
    slot and the badness counter. *)
Definition same_command {Ctx : Type} (w w' : Wrapper Ctx) : Prop :=
  _command w = _command w' /\ _args w = _args w'
  /\ _handler w = _handler w' /\ _syntax w = _syntax w'.

Definition is_Missing (e : ParsingError) : bool :=
  match class e with
  | MissingMandatory_ _ => true
  | _ => false
  end.

Definition is_Invalid (e : ParsingError) : bool :=
  match class e with
  | InvalidOption_ _ _ => true
  | _ => false
  end.

(** Two worlds with the same commands, application, flag and handlers
    called: they differ at most in the error slots and badness counters of
    the wrappers, and in what was written. *)
Definition same_dispatch {Ctx : Type} (w w' : World Ctx) : Prop :=
  Forall2 same_command (command_list w) (command_list w')
  /\ app w = app w'
  /\ _help_search w = _help_search w'
  /\ g_handlers w = g_handlers w'.

(** Two results of [resolve]: both out of fuel, or two worlds with the same
    commands, application, flag and handlers called. *)
Definition same_result {Ctx : Type} (o o' : option (World Ctx)) : Prop :=
  match o, o' with
  | Some a, Some b => same_dispatch a b
  | None, None => True
  | _, _ => False
  end.

(** Two errors of the same class, with the same message. *)
Definition same_error (e e' : ParsingError) : Prop :=
  class e = class e' /\ message e = message e'.

(** How many errors of a kind are in the log. *)
Definition count_errors (kind : ParsingError -> bool)
    (l : list ParsingError) : nat :=
  length (filter kind l).

(** The accounting of the user arguments pulled so far: each one was
    matched, or reported as an invalid option, or is still held. *)
Definition accounted (f : Frame) : Prop :=
  (g_matched f + count_errors is_Invalid (g_logged f) + buffered f
   = user_args_index f)%nat.

(** No user argument is held and none is left to pull. *)
Definition exhausted (user_args : list string) (f : Frame) : Prop :=
  user_arg f = None /\ nth_error user_args (user_args_index f) = None.

(** ** Quantities for the dispatcher *)

(** The exceptions that [_print_exceptions] prints, in the order printed
    (the source holds their indices in [to_print]). *)
Definition to_print (exceptions : list ParsingError) : list ParsingError :=
  first_of_each_message [] (sort_by_badness exceptions).

(** The first error is not worse than the second. *)
Definition not_worse (a b : ParsingError) : Prop := badness a <= badness b.

(** The errors of badness [b], in order. *)
Definition of_badness (b : Z) (l : list ParsingError) : list ParsingError :=
  filter (fun e => badness e =? b) l.

(** The wrapper after a call that returned [False]. *)
Definition rejected {Ctx : Type} (w : Wrapper Ctx) : Wrapper Ctx :=
  set_state w None (_badness w).

(** The command part of the wrapper rejects the token. *)
Definition rejects {Ctx : Type} (token : string) (w : Wrapper Ctx) : Prop :=
  match_ (_command w) token = inr (_InvalidOption (_command w) token).

(** ** The command list of an application: [App.__init__] *)




(** ** The help: [_Wrapper._str_lines], [indent], [__str__],
    [CommandList.__new__] *)

Definition HELP_WIDTH : Z := 78.
Definition MAX_HELP_INDENT : Z := 25.

(** [len(s)]. *)
Definition len (s : string) : Z := Z.of_nat (String.length s).

Fixpoint blanks (n : nat) : string :=
  match n with
  | O => ""
  | S n' => String " " (blanks n')
  end.

(** [' ' * k]: empty when [k] is not positive. *)
Definition spaces (k : Z) : string := blanks (Z.to_nat k).

(** The attributes of a [_Wrapper] that the help uses: [_syntax],
    [_description] and [_tab] ([None] until it is assigned). *)
Record Entry := mkEntry {
  e_syntax : string;
  e_description : string;
  e_tab : option Z
}.

(** [CommandList.__new__]: the tabulator position of the list, the
    largest [len(syntax) + 4] that is at most [MAX_HELP_INDENT]. *)
Definition largest_tab (values : list Entry) : Z :=
  fold_left
    (fun t e =>
       if len (e_syntax e) + 4 <=? MAX_HELP_INDENT
       then Z.max t (len (e_syntax e) + 4) else t)
    values 0.

Definition CommandList_new (values : list Entry) : list Entry :=
  map (fun e => mkEntry (e_syntax e) (e_description e)
                  (Some (largest_tab values)))
    values.

(** One round of the loop over the words of the description; the list
    [lines] of the source is [init ++ [last]]. *)
Definition place_word (tab indent : Z) (st : list string * string * bool)
    (word : string) : list string * string * bool :=
  let '(init, last, not_first_word) := st in
  if (len last + len word >=? HELP_WIDTH - indent) && not_first_word
  then ((init ++ [last])%list, spaces tab ++ word, true)
  else (init, last ++ " " ++ word, true).

(** The entry after the first block of [_str_lines], and [lines] there, as
    the lines before the last one and the last one. *)
Definition first_lines (self : Entry) : Entry * list string * string :=
  let tab := match e_tab self with
             | None => len (e_syntax self) + 4
             | Some t => t
             end in
  if negb (Py.truthy (e_syntax self)) then
    (mkEntry (e_syntax self)
       ("no command is given, " ++ e_description self ++ ".") (Some 0),
     [], "If")
  else if tab >=? len (e_syntax self) + 2 then
    (mkEntry (e_syntax self) (e_description self) (Some tab),
     [], e_syntax self ++ spaces (tab - len (e_syntax self) - 1))
  else
    (mkEntry (e_syntax self) (e_description self) (Some tab),
     [e_syntax self], spaces (tab - 1)).

(** The tabulator position of an entry that has one. *)
Definition tab_of (self : Entry) : Z :=
  match e_tab self with
  | Some t => t
  | None => 0
  end.

(** [_Wrapper._str_lines(indent)]: the entry afterwards and the lines. *)
Definition _str_lines (self : Entry) (indent : Z) : Entry * list string :=
  let '(self1, init, last) := first_lines self in
  let '(init', last', _) :=
    fold_left (place_word (tab_of self1) indent)
      (Py.split (e_description self1)) (init, last, false) in
  (self1, (init' ++ [last'])%list).

(** [_Wrapper.__str__]. *)
Definition Entry_str (self : Entry) : Entry * string :=
  let '(self1, lines) := _str_lines self 0 in
  (self1, Py.join LF lines).

(** [_Wrapper.indent(spaces)]. *)
Definition indent (self : Entry) (n : Z) : Entry * string :=
  let '(self1, lines) := _str_lines self 0 in
  (self1, spaces n ++ Py.join (LF ++ spaces n) lines).

(** A line of the help: what stands before the words, and the words
    separated by single blanks. *)
Definition help_line (pre : string) (words : list string) : string :=
  pre ++ Py.join " " words.

(** The line is not too wide for the help, or holds one word only. *)
Definition narrow (indent : Z) (pre : string) (words : list string) : Prop :=
  (length words <= 1)%nat \/ len (help_line pre words) <= HELP_WIDTH - indent.

(** ** The help command: [_help] *)

(** The loop of [_help] over the command list from position [pos]: the
    entries afterwards, what was printed, and the position of the entry
    held in [no_command], the last one with an empty syntax. *)
Fixpoint help_entries (pos : nat) (command_list : list Entry)
  : list Entry * list string * option nat :=
  match command_list with
  | [] => ([], [], None)
  | wrapper :: rest =>
      let '(entries, out, no_command) := help_entries (S pos) rest in
      if Py.truthy (e_syntax wrapper) then
        let '(wrapper', text) := indent wrapper 2 in
        (wrapper' :: entries, (text ++ LF) :: out, no_command)
      else
        (wrapper :: entries, out,
         match no_command with
         | Some i => Some i
         | None => Some pos
         end)
  end.

(** [lst[i] = x], for a position inside the list. *)
Fixpoint set_nth {A : Type} (i : nat) (x : A) (lst : list A) : list A :=
  match lst, i with
  | [], _ => []
  | _ :: rest, O => x :: rest
  | y :: rest, S i' => y :: set_nth i' x rest
  end.

(** [_help(self)] on [self.command_list]: the entries afterwards and what
    is printed. *)
Definition _help (command_list : list Entry) : list Entry * list string :=
  let '(entries, out, no_command) := help_entries 0 command_list in
  let header := "Available commands:" ++ LF in
  match no_command with
  | None => (entries, header :: out)
  | Some i =>
      match nth_error entries i with
      | Some wrapper =>
          let '(wrapper', text) := Entry_str wrapper in
          (set_nth i wrapper' entries,
           (header :: out ++ [(text ++ LF)%string])%list)
      | None => (entries, header :: out)
      end
  end.

(** The entry has a syntax. *)
Definition has_syntax (e : Entry) : bool := Py.truthy (e_syntax e).

(** The text of a list of lines, each one after [n] blanks. *)
Definition indented (n : Z) (lines : list string) : string :=
  Py.join LF (map (fun l => spaces n ++ l) lines).

(** ** Examples of the definitions *)

Example Part_greet_opts :
  Part_init "once|n-times" = mkPart "once|n-times" true "" ["once"; "n-times"].
Proof. reflexivity. Qed.

Example Part_opt_free : Part_init "[<n>]" = mkPart "[<n>]" false "n" [].
Proof. reflexivity. Qed.

Example Part_mixed : Part_init "a|<x>|<y>" = mkPart "a|<x>|<y>" true "x" ["a"].
Proof. reflexivity. Qed.

Example Part_empty : Part_init "" = mkPart "" true "" [""].
Proof. reflexivity. Qed.

Example split_example :
  Py.split "  greet   n-times 5 " = ["greet"; "n-times"; "5"].
Proof. reflexivity. Qed.

Example set_onlykey :
  outcome (call (bind "set <k> <v>" accept) tt "set" ["onlykey"])
  = Raise (mkError (MissingMandatory_ (Part_init "<v>"))
             "Missing mandatory argument '<v>'" 10000).
Proof. reflexivity. Qed.

Example unknown_command :
  resolve 2
    (mkWorld [bind "foo <x>" accept; bind "bar <y>" accept; bind "h|help" accept]
       tt false [] [])
    "baz"
  = Some
      (mkWorld
         [bind "foo <x>" accept; bind "bar <y>" accept;
          set_state (bind "h|help" accept) None 9997]
         tt false
         [("Unknown command baz." ++ LF)%string; LF]
         [(2%nat, [])]).
Proof. reflexivity. Qed.

Example two_diagnostics :
  _print_exceptions
    [mkError (Redundant_ "a") "Redundant argument 'a'" 10001;
     mkError (Redundant_ "b") "Redundant argument 'b'" 10000;
     mkError (Redundant_ "a") "Redundant argument 'a'" 10002]
  = ["    ";
     ("Redundant argument 'b'" ++ LF ++ "or  Redundant argument 'a'."
        ++ LF ++ LF)%string].
Proof. reflexivity. Qed.

(** ** The argument matcher *)

Lemma truthy_spec (s : string) : Py.truthy s = true <-> s <> "".
Proof.
  destruct s; simpl; split; intro H; congruence.
Qed.

Lemma truthy_false (s : string) : Py.truthy s = false <-> s = "".
Proof.
  destruct s; simpl; split; intro H; try congruence; reflexivity.
Qed.

Lemma match_inr (p : Part) (t : string) (e : ParsingError) :
  match_ p t = inr e -> e = _InvalidOption p t.
Proof.
  unfold match_.
  destruct (in_dec string_dec t (options p)); [discriminate|].
  destruct (Py.truthy (free_name p) && Py.truthy t); [discriminate|].
  destruct (negb (mandatory p)); [discriminate|].
  intro H; inversion H; reflexivity.
Qed.

Lemma match_value (p : Part) (t : string) (a : Argument) :
  match_ p t = inl a -> value a = t \/ a = Argument_empty.
Proof.
  unfold match_.
  destruct (in_dec string_dec t (options p)).
  - intro H; inversion H; left; reflexivity.
  - destruct (Py.truthy (free_name p) && Py.truthy t).
    + intro H; inversion H; left; reflexivity.
    + destruct (negb (mandatory p)); [|discriminate].
      intro H; inversion H; right; reflexivity.
Qed.

Lemma match_optional (p : Part) (t : string) :
  mandatory p = false -> exists a, match_ p t = inl a.
Proof.
  intro Hm. unfold match_. rewrite Hm. simpl.
  destruct (in_dec string_dec t (options p)); [eauto|].
  destruct (Py.truthy (free_name p) && Py.truthy t); eauto.
Qed.

(** C5: [match] decides in strict priority: a literal option first, then
    the free slot on a nonempty token, then the skip of an optional part,
    and at last [_InvalidOption], of base badness 3. *)
Theorem C5_match_priority (p : Part) (t : string) :
  (In t (options p) -> match_ p t = inl (mkArgument t None))
  /\ (~ In t (options p) -> free_name p <> "" -> t <> "" ->
      match_ p t = inl (mkArgument t (Some (free_name p))))
  /\ (~ In t (options p) -> free_name p = "" \/ t = "" ->
      mandatory p = false ->
      match_ p t = inl Argument_empty)
  /\ (~ In t (options p) -> free_name p = "" \/ t = "" ->
      mandatory p = true ->
      match_ p t = inr (_InvalidOption p t)
      /\ class (_InvalidOption p t) = InvalidOption_ p t
      /\ badness (_InvalidOption p t) = 3).
Proof.
  unfold match_.
  repeat split; intros; destruct (in_dec string_dec t (options p));
    try contradiction; try reflexivity.
  - apply truthy_spec in H0, H1. rewrite H0, H1. reflexivity.
  - assert (Hb : Py.truthy (free_name p) && Py.truthy t = false).
    { destruct H0 as [H0|H0]; rewrite H0; simpl;
        [reflexivity | apply andb_false_r]. }
    rewrite Hb, H1. reflexivity.
  - assert (Hb : Py.truthy (free_name p) && Py.truthy t = false).
    { destruct H0 as [H0|H0]; rewrite H0; simpl;
        [reflexivity | apply andb_false_r]. }
    rewrite Hb, H1. reflexivity.
Qed.

(** The four cases on the parts ['a|<x>'], ['[a]'] and ['a']. *)
Lemma C5_match_priority_witness :
  match_ (Part_init "a|<x>") "a" = inl (mkArgument "a" None)
  /\ match_ (Part_init "a|<x>") "b" = inl (mkArgument "b" (Some "x"))
  /\ match_ (Part_init "[a]") "b" = inl Argument_empty
  /\ match_ (Part_init "a") "b" = inr (_InvalidOption (Part_init "a") "b").
Proof.
  split; [|split; [|split]].
  - apply (C5_match_priority (Part_init "a|<x>") "a"). simpl. auto.
  - apply (C5_match_priority (Part_init "a|<x>") "b"); simpl.
    + intros [H|[]]; discriminate.
    + discriminate.
    + discriminate.
  - apply (C5_match_priority (Part_init "[a]") "b"); simpl.
    + intros [H|[]]; discriminate.
    + left; reflexivity.
    + reflexivity.
  - apply (C5_match_priority (Part_init "a") "b"); simpl.
    + intros [H|[]]; discriminate.
    + left; reflexivity.
    + reflexivity.
Defined.

Lemma call_not_false {Ctx : Type} (w : Wrapper Ctx) (ctx : Ctx)
    (cmd : string) (ua : list string) (a : Argument) :
  match_ (_command w) cmd = inl a ->
  outcome (call w ctx cmd ua) <> ReturnFalse.
Proof.
  intro Hm. unfold call. rewrite Hm.
  destruct (run_handler w ctx (parse w a cmd ua)) as [[f c] inv].
  unfold conclude.
  destruct (self_first_exception f); simpl; discriminate.
Qed.

(** C10: [match] raises [_InvalidOption] exactly when the part is
    mandatory, the token is none of its options, and the part has no free
    slot or the token is empty; so a wrapper whose command part is optional
    accepts every first token and never returns [False]. *)
Theorem C10_invalid_option_iff (p : Part) (t : string) :
  (match_ p t = inr (_InvalidOption p t)
   <-> mandatory p = true /\ ~ In t (options p)
       /\ (free_name p = "" \/ t = ""))
  /\ (forall e, match_ p t = inr e -> e = _InvalidOption p t)
  /\ (forall (Ctx : Type) (w : Wrapper Ctx) (ctx : Ctx) (cmd : string)
             (ua : list string),
         mandatory (_command w) = false ->
         (exists a, match_ (_command w) cmd = inl a)
         /\ outcome (call w ctx cmd ua) <> ReturnFalse).
Proof.
  split; [|split].
  - split.
    + unfold match_.
      destruct (in_dec string_dec t (options p)); [discriminate|].
      destruct (Py.truthy (free_name p)) eqn:Hf;
        destruct (Py.truthy t) eqn:Ht; simpl;
        destruct (mandatory p); simpl; try discriminate; intros _;
        repeat split; auto.
      * right. apply truthy_false; assumption.
      * left. apply truthy_false; assumption.
      * left. apply truthy_false; assumption.
    + intros (Hm & Hn & Hs). unfold match_.
      destruct (in_dec string_dec t (options p)); [contradiction|].
      assert (Hb : Py.truthy (free_name p) && Py.truthy t = false).
      { destruct Hs as [Hs|Hs]; rewrite Hs; simpl;
          [reflexivity | apply andb_false_r]. }
      rewrite Hb, Hm. reflexivity.
  - apply match_inr.
  - intros Ctx w ctx cmd ua Hm.
    destruct (match_optional (_command w) cmd Hm) as [a Ha].
    split; [eauto|].
    apply (call_not_false w ctx cmd ua a Ha).
Qed.

(** The part ['a'] on the token ['b'], and the wrapper of ['[go]'] on
    ['stop now']. *)
Lemma C10_invalid_option_iff_witness :
  match_ (Part_init "a") "b" = inr (_InvalidOption (Part_init "a") "b")
  /\ outcome (call (Wrapper_init (Command_init "[go]") (fun c _ => (c, None)))
                tt "stop" ["now"]) <> ReturnFalse.
Proof.
  split.
  - apply (C10_invalid_option_iff (Part_init "a") "b"). simpl.
    split; [reflexivity|]. split; [|left; reflexivity].
    intros [H|[]]; discriminate.
  - apply (C10_invalid_option_iff (Part_init "a") "b"). reflexivity.
Defined.

(** ** The walk over the argument parts *)

Lemma set_badness_id (e : ParsingError) : set_badness e (badness e) = e.
Proof. destruct e; reflexivity. Qed.

Lemma max_badness_snoc (e x : ParsingError) (rest : list ParsingError) :
  max_badness e (rest ++ [x]) = Z.max (max_badness e rest) (badness x).
Proof.
  unfold max_badness. rewrite map_app, fold_left_app. reflexivity.
Qed.

Lemma max_badness_ge (e : ParsingError) (rest : list ParsingError) :
  badness e <= max_badness e rest
  /\ Forall (fun x => badness x <= max_badness e rest) rest.
Proof.
  induction rest as [|x rest IH] using rev_ind.
  - unfold max_badness; simpl. split; [lia | constructor].
  - rewrite max_badness_snoc. destruct IH as [IH1 IH2]. split; [lia|].
    apply Forall_app. split.
    + eapply Forall_impl; [|exact IH2]. simpl. intros; lia.
    + constructor; [lia | constructor].
Qed.

Lemma max_badness_bounds (lo hi : Z) (e : ParsingError)
    (rest : list ParsingError) :
  Forall (fun x => lo <= badness x <= hi) (e :: rest) ->
  lo <= max_badness e rest <= hi.
Proof.
  intro H. inversion H as [|? ? He Hr]; subst. clear H.
  induction rest as [|x rest IH] using rev_ind.
  - unfold max_badness; simpl. exact He.
  - rewrite max_badness_snoc. apply Forall_app in Hr. destruct Hr as [Hr Hx].
    inversion Hx; subst. specialize (IH Hr). lia.
Qed.

Lemma Rep_log (e : ParsingError) (f : Frame) :
  Rep f -> Rep (_log_exception e f).
Proof.
  unfold Rep, _log_exception. simpl.
  destruct (g_logged f) as [|e0 rest]; intro H; rewrite H; simpl.
  - unfold max_badness; simpl. rewrite set_badness_id. reflexivity.
  - rewrite max_badness_snoc. reflexivity.
Qed.

Lemma Rep_none (f : Frame) :
  Rep f -> (self_first_exception f = None <-> g_logged f = []).
Proof.
  unfold Rep. destruct (g_logged f); intro H; rewrite H; split;
    intro; try reflexivity; discriminate.
Qed.

Lemma walk_error_badness (e : ParsingError) :
  walk_error e -> 3 <= badness e <= 4.
Proof.
  intros [(p & v & ->)|(p & ->)]; simpl; lia.
Qed.

Lemma walk_error_not_Redundant (e : ParsingError) :
  walk_error e -> is_Redundant e = false.
Proof.
  intros [(p & v & ->)|(p & ->)]; reflexivity.
Qed.

Section Walk.

Variable user_args : list string.
Variable b0 : Z.

Lemma Inv_pull (f : Frame) :
  Inv user_args b0 f -> Inv user_args b0 (pull user_args f).
Proof.
  intro Hf. unfold pull.
  destruct (user_arg f) as [t|] eqn:Hu; [exact Hf|].
  destruct (nth_error user_args (user_args_index f)) as [a|] eqn:Hn;
    [|exact Hf].
  assert (Hlt : (user_args_index f < length user_args)%nat).
  { apply nth_error_Some. congruence. }
  destruct Hf as [Hb Hr Hl Hh Hx Hbuf He].
  unfold buffered in *. rewrite Hu in *.
  constructor; unfold buffered; simpl; auto; try lia.
  - intro Hg. specialize (Hx Hg). lia.
  - intros t Ht. congruence.
Qed.

Lemma Inv_log (e : ParsingError) (f : Frame) :
  walk_error e ->
  Inv user_args b0 f -> Inv user_args b0 (_log_exception e f).
Proof.
  intros Hw [Hb Hr Hl Hh Hx Hbuf He].
  constructor; unfold buffered in *; simpl; auto.
  - apply Rep_log; assumption.
  - intro Hg. apply app_eq_nil in Hg. destruct Hg; discriminate.
  - apply Forall_app. split; [assumption | constructor; auto].
Qed.

Lemma Inv_clear (f : Frame) :
  g_logged f <> [] ->
  Inv user_args b0 f -> Inv user_args b0 (clear_user_arg f).
Proof.
  intros Hne [Hb Hr Hl Hh Hx Hbuf He].
  constructor; unfold buffered in *; simpl; auto.
  - destruct (user_arg f); lia.
  - intro Hg. contradiction.
  - intros t Ht. discriminate.
Qed.

Lemma Inv_append (a : Argument) (f : Frame) :
  Inv user_args b0 f -> Inv user_args b0 (append_resolved a f).
Proof.
  intros [Hb Hr Hl Hh Hx Hbuf He].
  constructor; unfold buffered in *; simpl; auto.
Qed.

Lemma Inv_matched (f : Frame) :
  user_arg f <> None ->
  Inv user_args b0 f -> Inv user_args b0 (matched f).
Proof.
  intros Hne [Hb Hr Hl Hh Hx Hbuf He].
  unfold buffered in *.
  destruct (user_arg f) as [t|] eqn:Hu; [|contradiction].
  constructor; unfold buffered; simpl; auto; try lia.
  - intro Hg. specialize (Hx Hg). lia.
  - intros t' Ht'. discriminate.
Qed.

Lemma walk_Inv (parts : list Part) :
  forall f, Inv user_args b0 f -> Inv user_args b0 (walk user_args parts f).
Proof.
  induction parts as [|part rest IH]; intros f Hf; simpl; [assumption|].
  pose proof (Inv_pull f Hf) as H1.
  set (f1 := pull user_args f) in *.
  assert (Hstep :
    Inv user_args b0
      match match_ part (or_empty (user_arg f1)) with
      | inl a =>
          walk user_args rest
            (if Py.truthy (value a)
             then matched (append_resolved a f1)
             else append_resolved a f1)
      | inr e =>
          walk user_args rest (clear_user_arg (_log_exception e f1))
      end).
  { destruct (match_ part (or_empty (user_arg f1))) as [a|e] eqn:Hm.
    - apply IH. destruct (Py.truthy (value a)) eqn:Ht.
      + apply Inv_matched; [|apply Inv_append; assumption].
        simpl. intro Hn. rewrite Hn in Hm. simpl in Hm.
        apply match_value in Hm. destruct Hm as [Hm| ->].
        * rewrite Hm in Ht. discriminate.
        * discriminate.
      + apply Inv_append; assumption.
    - apply IH. apply Inv_clear.
      + simpl. intro Hg. apply app_eq_nil in Hg. destruct Hg; discriminate.
      + apply Inv_log; [|assumption].
        left. exists part, (or_empty (user_arg f1)).
        apply match_inr; assumption. }
  destruct (user_arg f1) as [t|] eqn:Hu; [exact Hstep|].
  destruct (mandatory part); [|exact Hstep].
  apply Inv_log; [|assumption]. right. exists part. reflexivity.
Qed.

End Walk.

Lemma start_Inv {Ctx : Type} (w : Wrapper Ctx) (a : Argument) (cmd : string)
    (user_args : list string) :
  Inv user_args (self_badness (start_frame w a cmd)) (start_frame w a cmd).
Proof.
  constructor; unfold buffered; simpl; auto; try lia.
  - reflexivity.
  - intros t Ht. discriminate.
Qed.

(** The frame after the walk satisfies the invariant. *)
Lemma walked_Inv {Ctx : Type} (w : Wrapper Ctx) (a : Argument) (cmd : string)
    (user_args : list string) :
  Inv user_args (self_badness (start_frame w a cmd))
    (walk user_args (_args w) (start_frame w a cmd)).
Proof. apply walk_Inv, start_Inv. Qed.

(** ** After the walk *)

Lemma check_redundant_logged (user_args : list string) (b0 : Z) (f : Frame) :
  Inv user_args b0 f ->
  g_logged (check_redundant user_args f)
  = (g_logged f ++ match surplus user_args f with
                   | Some t => [_Redundant t]
                   | None => []
                   end)%list.
Proof.
  intros [Hb Hr Hl Hh Hx Hbuf He].
  unfold check_redundant, surplus, consumed_tokens, buffered in *.
  destruct (user_arg f) as [t|] eqn:Hu.
  - replace (user_args_index f - 1)%nat with (pred (user_args_index f))
      by lia.
    rewrite (Hbuf t eq_refl). reflexivity.
  - rewrite Nat.sub_0_r.
    destruct (nth_error user_args (user_args_index f)); simpl;
      [reflexivity | rewrite app_nil_r; reflexivity].
Qed.

Lemma check_redundant_Rep (user_args : list string) (f : Frame) :
  Rep f -> Rep (check_redundant user_args f).
Proof.
  intro H. unfold check_redundant.
  destruct (user_arg f); [apply Rep_log; assumption|].
  destruct (nth_error user_args (user_args_index f));
    [apply Rep_log; assumption | assumption].
Qed.

Lemma check_redundant_same (user_args : list string) (f : Frame) :
  self_badness (check_redundant user_args f) = self_badness f
  /\ g_matched (check_redundant user_args f) = g_matched f
  /\ resolved_args (check_redundant user_args f) = resolved_args f.
Proof.
  unfold check_redundant.
  destruct (user_arg f); [repeat split|].
  destruct (nth_error user_args (user_args_index f)); repeat split.
Qed.

Lemma parse_Rep {Ctx : Type} (w : Wrapper Ctx) (a : Argument) (cmd : string)
    (user_args : list string) :
  Rep (parse w a cmd user_args).
Proof.
  apply check_redundant_Rep.
  apply (inv_rep _ _ _ (walked_Inv w a cmd user_args)).
Qed.

Lemma filter_Redundant_walk (l : list ParsingError) :
  Forall walk_error l -> filter is_Redundant l = [].
Proof.
  induction 1 as [|e l He _ IH]; simpl; [reflexivity|].
  rewrite (walk_error_not_Redundant e He). exact IH.
Qed.

(** C9: the walk logs no [_Redundant]; after it, when a user argument is
    left (held in [user_arg] or not yet taken), exactly one [_Redundant],
    of base badness 4, is logged, for the first argument left; when all
    were consumed, none is logged. *)
Theorem C9_one_redundant {Ctx : Type} (w : Wrapper Ctx) (a : Argument)
    (cmd : string) (user_args : list string) :
  let f := walk user_args (_args w) (start_frame w a cmd) in
  let f' := parse w a cmd user_args in
  filter is_Redundant (g_logged f) = []
  /\ match surplus user_args f with
     | Some t =>
         g_logged f' = (g_logged f ++ [_Redundant t])%list
         /\ filter is_Redundant (g_logged f') = [_Redundant t]
         /\ class (_Redundant t) = Redundant_ t
         /\ badness (_Redundant t) = 4
     | None =>
         g_logged f' = g_logged f
         /\ filter is_Redundant (g_logged f') = []
     end
  /\ (surplus user_args f = None <-> consumed_tokens f = length user_args)
  /\ (forall t, user_arg f = Some t -> surplus user_args f = Some t)
  /\ (user_arg f = None ->
      surplus user_args f = nth_error user_args (user_args_index f)).
Proof.
  intros f f'.
  pose proof (walked_Inv w a cmd user_args) as HI. fold f in HI.
  assert (HL : g_logged f'
               = (g_logged f ++ match surplus user_args f with
                                | Some t => [_Redundant t]
                                | None => []
                                end)%list)
    by exact (check_redundant_logged _ _ f HI).
  pose proof (filter_Redundant_walk _ (inv_errors _ _ _ HI)) as HF.
  split; [exact HF|]. split; [|split; [|split]].
  - destruct (surplus user_args f) as [t|].
    + rewrite HL, filter_app, HF. repeat split.
    + rewrite app_nil_r in HL. rewrite HL. split; [reflexivity | exact HF].
  - unfold surplus. rewrite nth_error_None.
    destruct HI as [_ _ Hl Hh _ _ _]. unfold consumed_tokens. lia.
  - intros t Ht. destruct HI as [_ _ Hl _ _ Hbuf _].
    unfold surplus, consumed_tokens, buffered in *. rewrite Ht in *.
    replace (user_args_index f - 1)%nat with (pred (user_args_index f))
      by lia.
    apply Hbuf. reflexivity.
  - intro Hu. unfold surplus, consumed_tokens, buffered. rewrite Hu.
    rewrite Nat.sub_0_r. reflexivity.
Qed.

(** The errors logged in a call on a candidate: those of the walk and the
    tests after it when the handler was not called, else the one the
    handler raised, if any. *)
Lemma call_errors {Ctx : Type} (w : Wrapper Ctx) (ctx : Ctx)
    (cmd : string) (user_args : list string) (a : Argument) :
  match_ (_command w) cmd = inl a ->
  let r := call w ctx cmd user_args in
  Rep_result r
  /\ match g_invoked r with
     | None => g_errors r = g_logged (parse w a cmd user_args)
     | Some l =>
         g_logged (parse w a cmd user_args) = []
         /\ g_errors r = match snd (_handler w ctx l) with
                         | Some e => [e]
                         | None => []
                         end
     end.
Proof.
  intros Hm r. subst r. unfold Rep_result, call. rewrite Hm.
  pose proof (parse_Rep w a cmd user_args) as HR.
  set (f := parse w a cmd user_args) in *.
  unfold run_handler.
  destruct (self_first_exception f) as [e0|] eqn:H0.
  - unfold conclude. rewrite H0. simpl. split; [|reflexivity].
    unfold Rep in HR. destruct (g_logged f) as [|e rest].
    + congruence.
    + rewrite H0 in HR. inversion HR; subst. reflexivity.
  - pose proof (proj1 (Rep_none f HR) H0) as Hnil.
    destruct (_handler w ctx (resolved_args f)) as [c [e|]] eqn:Hh.
    + unfold conclude, _log_exception. simpl. rewrite H0. simpl.
      rewrite Hnil. simpl. rewrite Hh. simpl.
      split; [|split; reflexivity].
      unfold max_badness. simpl. reflexivity.
    + unfold conclude. rewrite H0. simpl. rewrite Hnil, Hh. simpl.
      repeat split.
Qed.

(** C4: on a candidate (the command part accepted the command token), when
    errors were logged the first one is raised, with the largest base
    badness of all errors logged plus the badness counter of the attempt;
    a [_ParsingError] raised by the handler is logged like the others; when
    nothing was logged the call returns [True]. *)
Theorem C4_representative_error {Ctx : Type} (w : Wrapper Ctx) (ctx : Ctx)
    (cmd : string) (user_args : list string) (a : Argument) :
  match_ (_command w) cmd = inl a ->
  let r := call w ctx cmd user_args in
  match g_errors r with
  | [] => outcome r = ReturnTrue
  | e :: rest =>
      outcome r
      = Raise (mkError (class e) (message e)
                 (max_badness e rest + _badness (self_after r)))
  end
  /\ match g_invoked r with
     | None => g_errors r = g_logged (parse w a cmd user_args)
     | Some l =>
         g_logged (parse w a cmd user_args) = []
         /\ g_errors r = match snd (_handler w ctx l) with
                         | Some e => [e]
                         | None => []
                         end
     end.
Proof. exact (call_errors w ctx cmd user_args a). Qed.

(** ** The arguments given to the handler *)

Lemma walk_cons (user_args : list string) (part : Part) (rest : list Part)
    (f : Frame) :
  walk user_args (part :: rest) f
  = let f1 := pull user_args f in
    if match user_arg f1 with
       | None => mandatory part
       | Some _ => false
       end
    then _log_exception (_MissingMandatory part) f1
    else
      match match_ part (or_empty (user_arg f1)) with
      | inr e => walk user_args rest (clear_user_arg (_log_exception e f1))
      | inl a =>
          walk user_args rest
            (if Py.truthy (value a)
             then matched (append_resolved a f1)
             else append_resolved a f1)
      end.
Proof.
  simpl. destruct (user_arg (pull user_args f)); [reflexivity|].
  destruct (mandatory part); reflexivity.
Qed.

Lemma walk_logged_nil (user_args : list string) (parts : list Part) :
  forall f, g_logged (walk user_args parts f) = [] -> g_logged f = [].
Proof.
  assert (Hpull : forall f, g_logged (pull user_args f) = g_logged f).
  { intro f. unfold pull. destruct (user_arg f); [reflexivity|].
    destruct (nth_error user_args (user_args_index f)); reflexivity. }
  induction parts as [|part rest IH]; intros f H; [exact H|].
  rewrite walk_cons in H. cbv zeta in H.
  destruct (match user_arg (pull user_args f) with
            | None => mandatory part
            | Some _ => false
            end).
  - simpl in H. apply app_eq_nil in H. destruct H; discriminate.
  - destruct (match_ part (or_empty (user_arg (pull user_args f))))
      as [a|e].
    + apply IH in H. rewrite <- Hpull.
      destruct (Py.truthy (value a)); exact H.
    + apply IH in H. simpl in H. apply app_eq_nil in H.
      destruct H; discriminate.
Qed.

Lemma firstn_S_nth {A : Type} (l : list A) :
  forall (n : nat) (x : A),
    nth_error l n = Some x -> firstn (S n) l = (firstn n l ++ [x])%list.
Proof.
  induction l as [|y l IH]; intros [|n] x H; simpl in *; try discriminate.
  - inversion H; reflexivity.
  - rewrite (IH n x H). reflexivity.
Qed.

Lemma match_empty_value (p : Part) (t : string) (a : Argument) :
  match_ p t = inl a -> carries a = false -> a = Argument_empty.
Proof.
  unfold match_, carries.
  destruct (in_dec string_dec t (options p)).
  - intro H; inversion H; subst; simpl. intro Ht.
    apply truthy_false in Ht. subst. reflexivity.
  - destruct (Py.truthy (free_name p)); simpl.
    + destruct (Py.truthy t) eqn:Ht.
      * intro H; inversion H; subst; simpl. congruence.
      * destruct (negb (mandatory p)); [|discriminate].
        intro H; inversion H; reflexivity.
    + destruct (negb (mandatory p)); [|discriminate].
      intro H; inversion H; reflexivity.
Qed.

(** A walk that logs nothing appends one value per part, a result of the
    part's [match]; the values that carry information are the user
    arguments matched, in order, and the others are empty. *)
Lemma walk_success (user_args : list string) (b0 : Z) (parts : list Part) :
  forall f,
    Inv user_args b0 f ->
    g_logged (walk user_args parts f) = [] ->
    exists vals,
      resolved_args (walk user_args parts f)
      = (resolved_args f ++ vals)%list
      /\ Forall2 matches parts vals
      /\ firstn (g_matched (walk user_args parts f)) user_args
         = (firstn (g_matched f) user_args
              ++ map value (filter carries vals))%list
      /\ Forall (fun v => carries v = false -> v = Argument_empty) vals.
Proof.
  induction parts as [|part rest IH]; intros f HI H.
  - exists []. simpl. rewrite !app_nil_r. repeat split; constructor.
  - rewrite walk_cons in *. cbv zeta in *.
    pose proof (Inv_pull user_args b0 f HI) as H1.
    assert (Hres : resolved_args (pull user_args f) = resolved_args f).
    { unfold pull. destruct (user_arg f); [reflexivity|].
      destruct (nth_error user_args (user_args_index f)); reflexivity. }
    assert (Hmat : g_matched (pull user_args f) = g_matched f).
    { unfold pull. destruct (user_arg f); [reflexivity|].
      destruct (nth_error user_args (user_args_index f)); reflexivity. }
    set (f1 := pull user_args f) in *.
    destruct (match user_arg f1 with
              | None => mandatory part
              | Some _ => false
              end).
    { simpl in H. apply app_eq_nil in H. destruct H; discriminate. }
    destruct (match_ part (or_empty (user_arg f1))) as [a|e] eqn:Hm.
    2:{ apply walk_logged_nil in H. simpl in H. apply app_eq_nil in H.
        destruct H; discriminate. }
    pose proof (walk_logged_nil _ _ _ H) as Hnil.
    destruct (Py.truthy (value a)) eqn:Ht.
    + simpl in Hnil.
      assert (Hu : exists t, user_arg f1 = Some t /\ value a = t).
      { destruct (user_arg f1) as [t|] eqn:Hu.
        - exists t. split; [reflexivity|].
          simpl in Hm. apply match_value in Hm. destruct Hm as [Hm| ->].
          + exact Hm.
          + discriminate.
        - simpl in Hm. apply match_value in Hm. destruct Hm as [Hm| ->].
          + rewrite Hm in Ht. discriminate.
          + discriminate. }
      destruct Hu as (t & Hu & Hv).
      assert (HI2 : Inv user_args b0 (matched (append_resolved a f1))).
      { apply Inv_matched; [simpl; congruence | apply Inv_append; exact H1]. }
      destruct (IH _ HI2 H) as (vals & Hr & HF & Hfirst & Hemp).
      exists (a :: vals).
      cbn [matched append_resolved g_matched resolved_args] in Hr, Hfirst.
      split; [|split; [|split]].
      * rewrite Hr, Hres, <- app_assoc. reflexivity.
      * constructor; [|exact HF]. eexists; exact Hm.
      * rewrite Hfirst. cbn [filter]. unfold carries at 2. rewrite Ht.
        cbn [map].
        destruct H1 as [_ _ Hl _ Hx Hbuf _].
        specialize (Hx Hnil). specialize (Hbuf t Hu).
        unfold buffered in Hx. rewrite Hu in Hx.
        replace (pred (user_args_index f1)) with (g_matched f1)
          in Hbuf by lia.
        rewrite (firstn_S_nth _ _ _ Hbuf), <- app_assoc, Hmat, Hv.
        reflexivity.
      * constructor; [|exact Hemp]. unfold carries. congruence.
    + assert (HI2 : Inv user_args b0 (append_resolved a f1)).
      { apply Inv_append; exact H1. }
      destruct (IH _ HI2 H) as (vals & Hr & HF & Hfirst & Hemp).
      exists (a :: vals). simpl in Hr, Hfirst.
      split; [|split; [|split]].
      * rewrite Hr, Hres, <- app_assoc. reflexivity.
      * constructor; [|exact HF]. eexists; exact Hm.
      * rewrite Hfirst. simpl. unfold carries at 2. rewrite Ht, Hmat.
        reflexivity.
      * constructor; [|exact Hemp]. intros _.
        eapply match_empty_value; [exact Hm | exact Ht].
Qed.

Lemma conclude_fields {Ctx : Type} (w : Wrapper Ctx) (f : Frame) (c : Ctx)
    (inv : option (list Argument)) :
  g_invoked (conclude w f c inv) = inv
  /\ g_errors (conclude w f c inv) = g_logged f
  /\ g_consumed (conclude w f c inv) = g_matched f
  /\ ctx_after (conclude w f c inv) = c
  /\ _badness (self_after (conclude w f c inv)) = self_badness f.
Proof.
  unfold conclude. destruct (self_first_exception f); repeat split.
Qed.

Lemma conclude_outcome {Ctx : Type} (w : Wrapper Ctx) (f : Frame) (c : Ctx)
    (inv : option (list Argument)) :
  outcome (conclude w f c inv)
  = match self_first_exception f with
    | Some e => Raise (set_badness e (badness e + self_badness f))
    | None => ReturnTrue
    end.
Proof.
  unfold conclude. destruct (self_first_exception f); reflexivity.
Qed.

(** The handler step: either an error was logged before and nothing is
    done, or the handler is called on [resolved_args]. *)
Lemma run_handler_cases {Ctx : Type} (w : Wrapper Ctx) (ctx : Ctx)
    (f : Frame) :
  (self_first_exception f <> None /\ run_handler w ctx f = (f, ctx, None))
  \/ (self_first_exception f = None
      /\ exists c, (_handler w ctx (resolved_args f) = (c, None)
                    /\ run_handler w ctx f = (f, c, Some (resolved_args f)))
                   \/ (exists e,
                         _handler w ctx (resolved_args f) = (c, Some e)
                         /\ run_handler w ctx f
                            = (_log_exception e f, c,
                               Some (resolved_args f)))).
Proof.
  unfold run_handler. destruct (self_first_exception f).
  - left. split; [discriminate | reflexivity].
  - right. split; [reflexivity|].
    destruct (_handler w ctx (resolved_args f)) as [c [e|]]; exists c.
    + right. exists e. split; reflexivity.
    + left. split; reflexivity.
Qed.

Lemma parse_success {Ctx : Type} (w : Wrapper Ctx) (a : Argument)
    (cmd : string) (user_args : list string) :
  g_logged (parse w a cmd user_args) = [] ->
  exists vals,
    resolved_args (parse w a cmd user_args)
    = (seed (_command w) a ++ vals)%list
    /\ Forall2 matches (_args w) vals
    /\ map value (filter carries vals) = user_args
    /\ Forall (fun v => carries v = false -> v = Argument_empty) vals
    /\ g_matched (parse w a cmd user_args) = length user_args.
Proof.
  intro H. unfold parse in *.
  pose proof (walked_Inv w a cmd user_args) as HI.
  set (f := walk user_args (_args w) (start_frame w a cmd)) in *.
  rewrite (check_redundant_logged _ _ f HI) in H.
  apply app_eq_nil in H. destruct H as [Hnil Hsur].
  destruct (walk_success _ _ (_args w) _ (start_Inv w a cmd user_args) Hnil)
    as (vals & Hr & HF & Hfirst & Hemp).
  fold f in Hr, Hfirst.
  destruct (check_redundant_same user_args f) as (_ & Hm & Hres).
  assert (Hlen : g_matched f = length user_args).
  { destruct HI as [_ _ Hl Hh Hx _ _]. specialize (Hx Hnil).
    unfold surplus, consumed_tokens in Hsur.
    destruct (nth_error user_args (user_args_index f - buffered f))
      eqn:Hn; [discriminate|].
    apply nth_error_None in Hn. lia. }
  exists vals. rewrite Hres, Hm, Hr. repeat split; auto.
  rewrite Hlen, firstn_all in Hfirst. simpl in Hfirst. auto.
Qed.

(** C7 (as the code has it): the handler is called with the command's own
    value exactly when the command part has a free slot or is optional,
    followed by one value for every argument part, in order, each a result
    of that part's [match]: the values that carry information are the user
    arguments, in order, and every other value is the empty argument of an
    optional part that was skipped.  For ['greet once|n-times [<n>]'] and
    ['greet n-times 5'] the handler receives [('n-times', '5')]. *)
Theorem C7_handler_arguments {Ctx : Type} (w : Wrapper Ctx) (ctx : Ctx)
    (cmd : string) (user_args : list string) :
  let r := call w ctx cmd user_args in
  (outcome r = ReturnTrue -> g_invoked r <> None)
  /\ (forall l,
        g_invoked r = Some l ->
        exists rc vals,
          match_ (_command w) cmd = inl rc
          /\ l = ((if Py.truthy (free_name (_command w))
                      || negb (mandatory (_command w))
                   then [rc] else []) ++ vals)%list
          /\ Forall2 matches (_args w) vals
          /\ map value (filter carries vals) = user_args
          /\ Forall (fun v => carries v = false -> v = Argument_empty) vals)
  /\ (forall h : Handler Ctx,
        g_invoked (call (bind "greet once|n-times [<n>]" h) ctx
                     "greet" ["n-times"; "5"])
        = Some [mkArgument "n-times" None; mkArgument "5" (Some "n")]).
Proof.
  intro r. subst r. split; [|split].
  - unfold call.
    destruct (match_ (_command w) cmd) as [rc|e]; [|discriminate].
    destruct (run_handler_cases w ctx (parse w rc cmd user_args))
      as [[Hne ->]|[H0 [c [[_ ->]|[e [_ ->]]]]]].
    + rewrite conclude_outcome.
      destruct (self_first_exception (parse w rc cmd user_args));
        [discriminate | contradiction].
    + intros _. rewrite (proj1 (conclude_fields _ _ _ _)). discriminate.
    + intros _. rewrite (proj1 (conclude_fields _ _ _ _)). discriminate.
  - intros l. unfold call.
    destruct (match_ (_command w) cmd) as [rc|e] eqn:Hm; [|discriminate].
    pose proof (parse_Rep w rc cmd user_args) as HR.
    destruct (run_handler_cases w ctx (parse w rc cmd user_args))
      as [[Hne ->]|[H0 Hrun]].
    + rewrite (proj1 (conclude_fields _ _ _ _)). discriminate.
    + pose proof (proj1 (Rep_none _ HR) H0) as Hnil.
      destruct (parse_success w rc cmd user_args Hnil)
        as (vals & Hr & HF & Htok & Hemp & _).
      intro Hinv.
      assert (Hl : l = resolved_args (parse w rc cmd user_args)).
      { destruct Hrun as [c [[_ Hrun]|[e [_ Hrun]]]]; rewrite Hrun in Hinv;
          rewrite (proj1 (conclude_fields _ _ _ _)) in Hinv; congruence. }
      exists rc, vals. rewrite Hl, Hr. unfold seed. repeat split; auto.
  - intro h. unfold call, run_handler. simpl.
    match goal with
    | |- context [h ctx ?l] => destruct (h ctx l) as [c [e|]]
    end; reflexivity.
Qed.

(** The wrapper of ['<c> <k> [<v>]'] on ['put a']. *)
Lemma C7_handler_arguments_witness :
  exists rc vals,
    match_ (Part_init "<c>") "put" = inl rc
    /\ [mkArgument "put" (Some "c"); mkArgument "a" (Some "k"); Argument_empty]
       = ([rc] ++ vals)%list
    /\ map value (filter carries vals) = ["a"].
Proof.
  destruct (C7_handler_arguments (bind "<c> <k> [<v>]" accept) tt "put" ["a"])
    as (_ & H & _).
  destruct (H [mkArgument "put" (Some "c"); mkArgument "a" (Some "k");
               Argument_empty] eq_refl)
    as (rc & vals & Hm & Hl & _ & Htok & _).
  exists rc, vals. repeat split; assumption.
Defined.

(** C7, against the claim as stated: for ['greet once|n-times [<n>]'] and
    ['greet once'] the call succeeds and the handler receives two values,
    the second one for the part [[<n>]], which carried no information. *)
Lemma C7_counterexample :
  outcome (call (bind "greet once|n-times [<n>]" accept) tt "greet" ["once"])
  = ReturnTrue
  /\ g_invoked
       (call (bind "greet once|n-times [<n>]" accept) tt "greet" ["once"])
     = Some [mkArgument "once" None; Argument_empty]
  /\ carries Argument_empty = false.
Proof. repeat split. Qed.

(** ** Ranking of failed candidates *)

(** The badness counter after a call on a candidate: the counter before,
    less 3 when the command token is one of the options, less one for every
    user argument matched. *)
Lemma call_badness {Ctx : Type} (w : Wrapper Ctx) (ctx : Ctx) (cmd : string)
    (user_args : list string) (a : Argument) :
  match_ (_command w) cmd = inl a ->
  let r := call w ctx cmd user_args in
  _badness (self_after r)
  = (if in_dec string_dec cmd (options (_command w))
     then _badness w - 3 else _badness w) - Z.of_nat (g_consumed r)
  /\ (g_consumed r <= length user_args)%nat
  /\ (g_invoked r <> None -> g_consumed r = length user_args)
  /\ (g_invoked r = None -> Forall walk_error_or_redundant (g_errors r)).
Proof.
  intros Hm r. subst r. unfold call. rewrite Hm.
  pose proof (walked_Inv w a cmd user_args) as HI.
  pose proof (parse_Rep w a cmd user_args) as HR.
  destruct (check_redundant_same user_args
              (walk user_args (_args w) (start_frame w a cmd)))
    as (Hb & Hg & _).
  pose proof (check_redundant_logged _ _ _ HI) as HL.
  fold (parse w a cmd user_args) in Hb, Hg, HL.
  assert (Hbad : self_badness (parse w a cmd user_args)
                 = (if in_dec string_dec cmd (options (_command w))
                    then _badness w - 3 else _badness w)
                   - Z.of_nat (g_matched (parse w a cmd user_args))).
  { rewrite Hb, Hg. apply (inv_badness _ _ _ HI). }
  assert (Hle : (g_matched (parse w a cmd user_args)
                 <= length user_args)%nat).
  { rewrite Hg. destruct HI as [_ _ Hl Hh _ _ _]. lia. }
  assert (Hwr : Forall walk_error_or_redundant
                  (g_logged (parse w a cmd user_args))).
  { rewrite HL. apply Forall_app. split.
    - eapply Forall_impl; [|exact (inv_errors _ _ _ HI)].
      intros e He. left. exact He.
    - destruct (surplus user_args _); constructor; [|constructor].
      right. eexists; reflexivity. }
  destruct (run_handler_cases w ctx (parse w a cmd user_args))
    as [[Hne ->]|[H0 [c Hrun]]].
  - destruct (conclude_fields w (parse w a cmd user_args) ctx None)
      as (-> & -> & -> & _ & ->).
    repeat split; auto; try (intro H; contradiction).
  - pose proof (proj1 (Rep_none _ HR) H0) as Hnil.
    destruct (parse_success w a cmd user_args Hnil)
      as (_ & _ & _ & _ & _ & Hlen).
    destruct Hrun as [[_ ->]|[e [_ ->]]].
    + destruct (conclude_fields w (parse w a cmd user_args) c
                  (Some (resolved_args (parse w a cmd user_args))))
        as (-> & -> & -> & _ & ->).
      repeat split; auto; try discriminate.
    + destruct (conclude_fields w (_log_exception e (parse w a cmd user_args))
                  c (Some (resolved_args (parse w a cmd user_args))))
        as (-> & -> & -> & _ & ->).
      simpl. repeat split; auto; try discriminate.
Qed.

Lemma walk_error_or_redundant_badness (e : ParsingError) :
  walk_error_or_redundant e -> 3 <= badness e <= 4.
Proof.
  intros [H|[t ->]]; [apply walk_error_badness; exact H | simpl; lia].
Qed.

(** The badness of the error a call raises. *)
Lemma raise_badness {Ctx : Type} (w : Wrapper Ctx) (ctx : Ctx) (cmd : string)
    (user_args : list string) (e : ParsingError) :
  let r := call w ctx cmd user_args in
  outcome r = Raise e ->
  exists e0 rest,
    g_errors r = e0 :: rest
    /\ badness e
       = max_badness e0 rest
         + (if in_dec string_dec cmd (options (_command w))
            then _badness w - 3 else _badness w)
         - Z.of_nat (g_consumed r).
Proof.
  intros r H. subst r.
  destruct (match_ (_command w) cmd) as [a|x] eqn:Hm.
  - destruct (call_errors w ctx cmd user_args a Hm) as [H1 _].
    destruct (call_badness w ctx cmd user_args a Hm) as (Hb & _).
    cbv zeta in *. unfold Rep_result in H1.
    destruct (g_errors (call w ctx cmd user_args)) as [|e0 rest].
    + rewrite H in H1. discriminate.
    + exists e0, rest. split; [reflexivity|].
      rewrite H in H1. inversion H1; subst. simpl. rewrite Hb. lia.
  - unfold call in H. rewrite Hm in H. simpl in H. discriminate.
Qed.

(** C3 (as the code has it): two candidates fail on the same input; they
    start with the same badness counter, the command token is one of the
    options of A's command part whenever it is one of B's, and the handler
    of A raises only errors of base badness at most 4.  Then, when A matched
    more user arguments than B, the badness of the error A raises is at most
    that of B's. *)
Theorem C3_more_matched_ranks_first {Ctx : Type} (wA wB : Wrapper Ctx)
    (ctxA ctxB : Ctx) (cmd : string) (user_args : list string)
    (eA eB : ParsingError) :
  outcome (call wA ctxA cmd user_args) = Raise eA ->
  outcome (call wB ctxB cmd user_args) = Raise eB ->
  _badness wA = _badness wB ->
  (In cmd (options (_command wB)) -> In cmd (options (_command wA))) ->
  (forall c l c' e, _handler wA c l = (c', Some e) -> badness e <= 4) ->
  (g_consumed (call wB ctxB cmd user_args)
   < g_consumed (call wA ctxA cmd user_args))%nat ->
  badness eA <= badness eB.
Proof.
  intros HA HB Hsame Hlit Hh Hlt.
  destruct (raise_badness wA ctxA cmd user_args eA HA)
    as (a0 & ra & HgA & HbA).
  destruct (raise_badness wB ctxB cmd user_args eB HB)
    as (b0 & rb & HgB & HbB).
  assert (HmA : exists a, match_ (_command wA) cmd = inl a).
  { destruct (match_ (_command wA) cmd) as [a|x] eqn:Hm; [eauto|].
    unfold call in HA. rewrite Hm in HA. discriminate. }
  assert (HmB : exists a, match_ (_command wB) cmd = inl a).
  { destruct (match_ (_command wB) cmd) as [a|x] eqn:Hm; [eauto|].
    unfold call in HB. rewrite Hm in HB. discriminate. }
  destruct HmA as [a HmA]. destruct HmB as [b HmB].
  destruct (call_badness wA ctxA cmd user_args a HmA)
    as (_ & HleA & _ & HwA).
  destruct (call_badness wB ctxB cmd user_args b HmB)
    as (_ & _ & HallB & HwB).
  destruct (call_errors wA ctxA cmd user_args a HmA) as [_ HiA].
  cbv zeta in *.
  (* the errors of A have base badness at most 4 *)
  assert (HmaxA : max_badness a0 ra <= 4).
  { destruct (g_invoked (call wA ctxA cmd user_args)) as [l|] eqn:Hinv.
    - destruct HiA as [_ HiA]. rewrite HgA in HiA.
      destruct (_handler wA ctxA l) as [c' [e|]] eqn:He; simpl in HiA;
        [|discriminate].
      inversion HiA; subst. unfold max_badness; simpl.
      exact (Hh _ _ _ _ He).
    - specialize (HwA eq_refl). rewrite HgA in HwA.
      apply (max_badness_bounds 3 4).
      eapply Forall_impl; [|exact HwA].
      intros x Hx. apply walk_error_or_redundant_badness; exact Hx. }
  (* B did not reach its handler, so its errors have base badness 3 or 4 *)
  assert (HmaxB : 3 <= max_badness b0 rb).
  { destruct (g_invoked (call wB ctxB cmd user_args)) as [l|] eqn:Hinv.
    - assert (g_consumed (call wB ctxB cmd user_args) = length user_args)
        by (apply HallB; discriminate).
      lia.
    - specialize (HwB eq_refl). rewrite HgB in HwB.
      apply (max_badness_bounds 3 4).
      eapply Forall_impl; [|exact HwB].
      intros x Hx. apply walk_error_or_redundant_badness; exact Hx. }
  rewrite HbA, HbB, Hsame.
  destruct (in_dec string_dec cmd (options (_command wA))) as [iA|nA];
    destruct (in_dec string_dec cmd (options (_command wB))) as [iB|nB];
    try lia.
  exfalso. apply nA, Hlit, iB.
Qed.

(** The wrappers of ['set <k> <v>'] and ['set a|b'] on ['set onlykey']. *)
Lemma C3_more_matched_ranks_first_witness :
  outcome (call (bind "set <k> <v>" accept) tt "set" ["onlykey"])
  = Raise (set_badness (_MissingMandatory (Part_init "<v>")) 10000)
  /\ outcome (call (bind "set a|b" accept) tt "set" ["onlykey"])
     = Raise (set_badness (_InvalidOption (Part_init "a|b") "onlykey") 10000)
  /\ badness (set_badness (_MissingMandatory (Part_init "<v>")) 10000)
     <= badness (set_badness (_InvalidOption (Part_init "a|b") "onlykey")
                   10000).
Proof.
  split; [reflexivity|]. split; [reflexivity|].
  apply (C3_more_matched_ranks_first
           (bind "set <k> <v>" accept) (bind "set a|b" accept) tt tt
           "set" ["onlykey"]).
  - reflexivity.
  - reflexivity.
  - reflexivity.
  - simpl. auto.
  - intros c l c' e H. inversion H.
  - simpl. lia.
Defined.

(** C3, against the claim as stated: on ['foo bar baz'] the fresh wrapper
    of ['<c> <a>'] matches one user argument and raises an error of badness
    10003; the fresh wrapper of ['foo a'] matches none and raises an error
    of badness 10001. *)
Lemma C3_counterexample :
  exists eA eB,
    outcome (call (bind "<c> <a>" accept) tt "foo" ["bar"; "baz"]) = Raise eA
    /\ outcome (call (bind "foo a" accept) tt "foo" ["bar"; "baz"]) = Raise eB
    /\ (g_consumed (call (bind "foo a" accept) tt "foo" ["bar"; "baz"])
        < g_consumed (call (bind "<c> <a>" accept) tt "foo" ["bar"; "baz"]))%nat
    /\ badness eA = 10003
    /\ badness eB = 10001
    /\ ~ badness eA <= badness eB.
Proof.
  do 2 eexists. split; [reflexivity|]. split; [reflexivity|].
  split; [simpl; lia|]. split; [reflexivity|]. split; [reflexivity|].
  simpl. lia.
Qed.

(** C2, on the code: the badness counter is not set back when a call
    starts.  The fresh wrapper of ['foo <x>'] starts at 10000; called on
    ['foo a b'] it raises an error of badness 10000 and is left with the
    counter at 9996 and the error in its slot; called again on the same
    input, the slot is emptied but the counter goes on from 9996, so the
    error raised has badness 9996. *)
Theorem C2_badness_not_reset :
  let w0 := bind "foo <x>" accept in
  let r1 := call w0 tt "foo" ["a"; "b"] in
  let r2 := call (self_after r1) tt "foo" ["a"; "b"] in
  _badness w0 = _INITIAL_BADNESS
  /\ outcome r1 = Raise (set_badness (_Redundant "b") 10000)
  /\ _badness (self_after r1) = 9996
  /\ _first_exception (self_after r1)
     = Some (set_badness (_Redundant "b") 10000)
  /\ self_first_exception
       (start_frame (self_after r1) (mkArgument "foo" None) "foo") = None
  /\ self_badness
       (start_frame (self_after r1) (mkArgument "foo" None) "foo") = 9993
  /\ outcome r2 = Raise (set_badness (_Redundant "b") 9996)
  /\ _badness (self_after r2) = 9992.
Proof. repeat split. Qed.

(** The wrapper of ['foo a'] on ['foo bar baz']: two errors are logged, the
    first one is raised with the badness of the second. *)
Lemma C4_representative_error_witness :
  outcome (call (bind "foo a" accept) tt "foo" ["bar"; "baz"])
  = Raise (mkError (InvalidOption_ (Part_init "a") "bar")
             "Invalid option 'bar', must be one of 'a'"
             (4 + 9997)).
Proof.
  destruct (C4_representative_error (bind "foo a" accept) tt "foo"
              ["bar"; "baz"] (mkArgument "foo" None) eq_refl) as [H _].
  exact H.
Defined.

(** ** The dispatcher *)

Lemma true_invoked {Ctx : Type} (w : Wrapper Ctx) (ctx : Ctx) (cmd : string)
    (user_args : list string) :
  outcome (call w ctx cmd user_args) = ReturnTrue ->
  exists l, g_invoked (call w ctx cmd user_args) = Some l.
Proof.
  unfold call.
  destruct (match_ (_command w) cmd) as [rc|e]; [|discriminate].
  destruct (run_handler_cases w ctx (parse w rc cmd user_args))
    as [[Hne ->]|[H0 [c [[_ ->]|[e [_ ->]]]]]].
  - rewrite conclude_outcome.
    destruct (self_first_exception (parse w rc cmd user_args));
      [discriminate | contradiction].
  - intros _. rewrite (proj1 (conclude_fields _ _ _ _)). eauto.
  - intros _. rewrite (proj1 (conclude_fields _ _ _ _)). eauto.
Qed.

(** A call that returns [False] changes neither the application nor the
    badness counter, and calls no handler. *)
Lemma false_no_effect {Ctx : Type} (w : Wrapper Ctx) (ctx : Ctx)
    (cmd : string) (user_args : list string) (e : ParsingError) :
  match_ (_command w) cmd = inr e ->
  call w ctx cmd user_args
  = mkCallResult ReturnFalse (set_state w None (_badness w)) ctx
      [] 0%nat None.
Proof. intro H. unfold call. rewrite H. reflexivity. Qed.

Section Loop.

Context {Ctx : Type}.
Variable user_command : string.
Variable user_args : list string.

(** The loop over [pre ++ rest] when no wrapper of [pre] returns [True]:
    the loop over [pre], then the loop over [rest]. *)
Lemma attempts_app (pre rest : list (Wrapper Ctx)) :
  forall (pos : nat) (ctx : Ctx),
    returned (attempts pos pre ctx user_command user_args) = false ->
    let l1 := attempts pos pre ctx user_command user_args in
    let l2 := attempts (pos + length pre) rest (loop_ctx l1)
                user_command user_args in
    attempts pos (pre ++ rest)%list ctx user_command user_args
    = mkLoop (returned l2) (wrappers l1 ++ wrappers l2)%list (loop_ctx l2)
        (logged_exceptions l1 ++ logged_exceptions l2)%list
        (g_calls l1 ++ g_calls l2)%list.
Proof.
  induction pre as [|x pre IH]; intros pos ctx H; cbv zeta.
  - simpl. rewrite Nat.add_0_r.
    destruct (attempts pos rest ctx user_command user_args); reflexivity.
  - simpl in *.
    destruct (outcome (call x ctx user_command user_args)) eqn:Ho;
      simpl in *.
    + discriminate.
    + rewrite (IH (S pos) _ H). cbv zeta.
      replace (pos + S (length pre))%nat with (S pos + length pre)%nat
        by lia.
      rewrite <- app_assoc. reflexivity.
    + rewrite (IH (S pos) _ H). cbv zeta.
      replace (pos + S (length pre))%nat with (S pos + length pre)%nat
        by lia.
      rewrite <- app_assoc. reflexivity.
Qed.

(** The context after the loop over wrappers of which none returns
    [True]. *)
Lemma attempts_ctx (pre : list (Wrapper Ctx)) :
  forall (pos : nat) (ctx : Ctx),
    returned (attempts pos pre ctx user_command user_args) = false ->
    loop_ctx (attempts pos pre ctx user_command user_args)
    = ctx_before pre ctx user_command user_args.
Proof.
  induction pre as [|x pre IH]; intros pos ctx H; [reflexivity|].
  simpl in *.
  destruct (outcome (call x ctx user_command user_args)); simpl in *;
    [discriminate | apply (IH (S pos)); exact H
     | apply (IH (S pos)); exact H].
Qed.

Lemma attempts_positions (cl : list (Wrapper Ctx)) :
  forall (pos : nat) (ctx : Ctx),
    Forall (fun c => (pos <= fst c < pos + length cl)%nat)
      (g_calls (attempts pos cl ctx user_command user_args))
    /\ length (wrappers (attempts pos cl ctx user_command user_args))
       = length cl.
Proof.
  induction cl as [|x cl IH]; intros pos ctx; simpl.
  - split; [constructor | reflexivity].
  - assert (Hc : Forall (fun c => (pos <= fst c < pos + S (length cl))%nat)
                   (g_call pos (call x ctx user_command user_args))).
    { unfold g_call.
      destruct (g_invoked (call x ctx user_command user_args));
        repeat constructor; simpl; lia. }
    destruct (IH (S pos) (ctx_after (call x ctx user_command user_args)))
      as [IH1 IH2].
    assert (Hr : Forall (fun c => (pos <= fst c < pos + S (length cl))%nat)
                   (g_calls (attempts (S pos) cl
                               (ctx_after
                                  (call x ctx user_command user_args))
                               user_command user_args))).
    { eapply Forall_impl; [|exact IH1]. simpl. intros; lia. }
    destruct (outcome (call x ctx user_command user_args)); simpl.
    + split; [exact Hc | reflexivity].
    + split; [apply Forall_app; split; assumption | rewrite IH2; reflexivity].
    + split; [apply Forall_app; split; assumption | rewrite IH2; reflexivity].
Qed.

(** When the loop ends on a [True], the list splits into the wrappers
    tried in vain, the one that returned [True], and the ones not
    tried. *)
Lemma attempts_true (cl : list (Wrapper Ctx)) :
  forall (pos : nat) (ctx : Ctx),
    returned (attempts pos cl ctx user_command user_args) = true ->
    exists pre w post,
      cl = (pre ++ w :: post)%list
      /\ returned (attempts pos pre ctx user_command user_args) = false
      /\ outcome (call w (ctx_before pre ctx user_command user_args)
                    user_command user_args) = ReturnTrue
      /\ (forall pre1 x pre2,
            pre = (pre1 ++ x :: pre2)%list ->
            outcome (call x (ctx_before pre1 ctx user_command user_args)
                       user_command user_args) <> ReturnTrue).
Proof.
  induction cl as [|x cl IH]; intros pos ctx H; simpl in H;
    [discriminate|].
  destruct (outcome (call x ctx user_command user_args)) eqn:Ho.
  - exists [], x, cl. repeat split; auto.
    intros [|? ?] ? ? Hp; discriminate.
  - simpl in H. destruct (IH _ _ H) as (pre & w & post & -> & Hf & Hw & Hp).
    exists (x :: pre), w, post. split; [reflexivity|].
    split; [simpl; rewrite Ho; exact Hf|]. split; [exact Hw|].
    intros [|y pre1] z pre2 Heq; simpl in Heq; inversion Heq; subst.
    + simpl. rewrite Ho. discriminate.
    + simpl. eapply Hp. reflexivity.
  - simpl in H. destruct (IH _ _ H) as (pre & w & post & -> & Hf & Hw & Hp).
    exists (x :: pre), w, post. split; [reflexivity|].
    split; [simpl; rewrite Ho; exact Hf|]. split; [exact Hw|].
    intros [|y pre1] z pre2 Heq; simpl in Heq; inversion Heq; subst.
    + simpl. rewrite Ho. discriminate.
    + simpl. eapply Hp. reflexivity.
Qed.

End Loop.

Lemma invoked_not_false {Ctx : Type} (w : Wrapper Ctx) (ctx : Ctx)
    (cmd : string) (user_args : list string) :
  g_invoked (call w ctx cmd user_args) <> None ->
  outcome (call w ctx cmd user_args) <> ReturnFalse.
Proof.
  destruct (match_ (_command w) cmd) as [a|e] eqn:Hm.
  - intros _. apply (call_not_false w ctx cmd user_args a Hm).
  - rewrite (false_no_effect w ctx cmd user_args e Hm). simpl.
    intro H. contradiction.
Qed.

(** C1 (as the code has it): when the loop of [resolve] ends on a [True],
    [resolve] returns at once; the wrapper that returned [True] is the first
    one in the list whose call returns [True], its handler was called and
    raised nothing; every wrapper before it returned [False] or raised, and
    where the handler of such a wrapper was called, it raised; the handlers
    called are those, in order, and no handler of a later wrapper. *)
Theorem C1_first_true_wins {Ctx : Type} (w : World Ctx) (user_input : string)
    (fuel : nat) :
  let cmd := fst (tokenize user_input) in
  let ua := snd (tokenize user_input) in
  let l := attempts 0 (command_list w) (app w) cmd ua in
  returned l = true ->
  resolve (S fuel) w user_input = Some (after_loop w l)
  /\ exists pre x post args,
       command_list w = (pre ++ x :: post)%list
       /\ outcome (call x (ctx_before pre (app w) cmd ua) cmd ua) = ReturnTrue
       /\ g_invoked (call x (ctx_before pre (app w) cmd ua) cmd ua)
          = Some args
       /\ (forall pre1 y pre2,
             pre = (pre1 ++ y :: pre2)%list ->
             let r := call y (ctx_before pre1 (app w) cmd ua) cmd ua in
             outcome r <> ReturnTrue
             /\ (g_invoked r <> None -> exists e, outcome r = Raise e))
       /\ g_calls l
          = (g_calls (attempts 0 pre (app w) cmd ua)
               ++ [(length pre, args)])%list
       /\ Forall (fun c => (fst c < length pre)%nat)
            (g_calls (attempts 0 pre (app w) cmd ua))
       /\ wrappers l
          = (wrappers (attempts 0 pre (app w) cmd ua)
               ++ self_after
                    (call x (ctx_before pre (app w) cmd ua) cmd ua)
               :: post)%list
       /\ loop_ctx l
          = ctx_after (call x (ctx_before pre (app w) cmd ua) cmd ua).
Proof.
  intros cmd ua l H. split.
  - unfold resolve. subst l cmd ua.
    destruct (tokenize user_input) as [c a]. simpl in *.
    rewrite H. reflexivity.
  - destruct (attempts_true cmd ua (command_list w) 0 (app w) H)
      as (pre & x & post & Hcl & Hf & Hx & Hpre).
    destruct (true_invoked x _ cmd ua Hx) as [args Hargs].
    exists pre, x, post, args.
    pose proof (attempts_app cmd ua pre (x :: post) 0 (app w) Hf) as Happ.
    cbv zeta in Happ. rewrite <- Hcl in Happ. fold l in Happ.
    rewrite (attempts_ctx cmd ua pre 0 (app w) Hf) in Happ.
    simpl in Happ. rewrite Hx in Happ. unfold g_call in Happ.
    rewrite Hargs in Happ. simpl in Happ.
    split; [exact Hcl|]. split; [exact Hx|]. split; [exact Hargs|].
    split; [|rewrite Happ; simpl; repeat split].
    + intros pre1 y pre2 Hp r. split; [apply (Hpre pre1 y pre2 Hp)|].
      intro Hinv. pose proof (invoked_not_false y _ cmd ua Hinv) as Hnf.
      pose proof (Hpre pre1 y pre2 Hp) as Hnt. subst r.
      destruct (outcome (call y (ctx_before pre1 (app w) cmd ua) cmd ua));
        [contradiction | contradiction | eauto].
    + destruct (attempts_positions cmd ua pre 0 (app w)) as [Hpos _].
      eapply Forall_impl; [|exact Hpos]. simpl. intros; lia.
Qed.

(** The commands ['foo <x>'] and ['<c> <y>'] on ['foo bar']. *)
Lemma C1_first_true_wins_witness :
  resolve 1
    (mkWorld [bind "foo <x>" reject_value; bind "<c> <y>" accept] tt false
       [] [])
    "foo bar"
  = Some
      (after_loop
         (mkWorld [bind "foo <x>" reject_value; bind "<c> <y>" accept] tt
            false [] [])
         (attempts 0 [bind "foo <x>" reject_value; bind "<c> <y>" accept] tt
            "foo" ["bar"])).
Proof.
  apply (C1_first_true_wins
           (mkWorld [bind "foo <x>" reject_value; bind "<c> <y>" accept] tt
              false [] [])
           "foo bar" 0).
  reflexivity.
Defined.

(** C1, against the claim as stated: with the commands ['foo <x>'], whose
    handler rejects the value, and ['<c> <y>'], the input ['foo bar'] is
    dispatched with success; two handlers were called, and the one that
    returned is the second command's, although the command part of the
    first accepts the token ['foo']. *)
Lemma C1_counterexample :
  exists w',
    resolve 1
      (mkWorld [bind "foo <x>" reject_value; bind "<c> <y>" accept] tt false
         [] [])
      "foo bar" = Some w'
    /\ returned
         (attempts 0 [bind "foo <x>" reject_value; bind "<c> <y>" accept] tt
            "foo" ["bar"]) = true
    /\ g_handlers w'
       = [(0%nat, [mkArgument "bar" (Some "x")]);
          (1%nat, [mkArgument "foo" (Some "c"); mkArgument "bar" (Some "y")])]
    /\ stdout w' = []
    /\ match_ (_command (bind "foo <x>" reject_value)) "foo"
       = inl (mkArgument "foo" None).
Proof. eexists. repeat split. Qed.

(** ** The empty syntax *)

Lemma attempts_rejected {Ctx : Type} (cmd : string) (ua : list string)
    (pre : list (Wrapper Ctx)) :
  Forall (fun x => exists e, match_ (_command x) cmd = inr e) pre ->
  forall (pos : nat) (ctx : Ctx),
    returned (attempts pos pre ctx cmd ua) = false
    /\ loop_ctx (attempts pos pre ctx cmd ua) = ctx
    /\ logged_exceptions (attempts pos pre ctx cmd ua) = []
    /\ g_calls (attempts pos pre ctx cmd ua) = [].
Proof.
  induction 1 as [|x pre [e He] _ IH]; intros pos ctx; simpl.
  - repeat split.
  - rewrite (false_no_effect x ctx cmd ua e He). simpl.
    destruct (IH (S pos) ctx) as (H1 & H2 & H3 & H4).
    repeat split; assumption.
Qed.

(** C8 (as the code has it): the part compiled from the empty string is
    mandatory, has no free slot, and has one option, the empty string; it
    matches the empty token and no other.  The empty syntax compiles to
    this part and no argument parts, the empty line is the empty token, and
    a wrapper of the empty syntax called on it calls its handler without
    arguments; so does [resolve] on the empty line, when no wrapper before
    that one accepts the empty token. *)
Theorem C8_empty_syntax {Ctx : Type} (we : Wrapper Ctx) (w : World Ctx)
    (pre post : list (Wrapper Ctx)) (fuel : nat) :
  Part_init "" = mkPart "" true "" [""]
  /\ (forall t, (exists a, match_ (Part_init "") t = inl a) <-> t = "")
  /\ command (Command_init "") = Part_init ""
  /\ args (Command_init "") = []
  /\ tokenize "" = ("", [])
  /\ (_command we = Part_init "" -> _args we = [] ->
      forall ctx, g_invoked (call we ctx "" []) = Some [])
  /\ (_command we = Part_init "" -> _args we = [] ->
      command_list w = (pre ++ we :: post)%list ->
      Forall (fun x => exists e, match_ (_command x) "" = inr e) pre ->
      snd (_handler we (app w) []) = None ->
      exists w',
        resolve (S fuel) w "" = Some w'
        /\ g_handlers w' = (g_handlers w ++ [(length pre, [])])%list
        /\ app w' = fst (_handler we (app w) [])
        /\ stdout w' = stdout w
        /\ _help_search w' = _help_search w).
Proof.
  assert (Hcall : _command we = Part_init "" -> _args we = [] ->
            forall ctx,
              g_invoked (call we ctx "" []) = Some []
              /\ ctx_after (call we ctx "" []) = fst (_handler we ctx [])
              /\ (snd (_handler we ctx []) = None ->
                  outcome (call we ctx "" []) = ReturnTrue)).
  { intros Hc Ha ctx. unfold call, parse, run_handler, start_frame.
    rewrite Hc, Ha. simpl.
    destruct (_handler we ctx []) as [c [e|]]; simpl; repeat split.
    discriminate. }
  split; [reflexivity|]. split; [|split; [reflexivity|]].
  - intro t. split.
    + intros [a Ha]. unfold match_ in Ha.
      destruct (in_dec string_dec t (options (Part_init ""))) as [i|n].
      * simpl in i. destruct i as [<-|[]]. reflexivity.
      * simpl in Ha. discriminate.
    + intros ->. eexists. reflexivity.
  - split; [reflexivity|]. split; [reflexivity|]. split.
    + intros Hc Ha ctx. apply (Hcall Hc Ha ctx).
    + intros Hc Ha Hcl Hpre Hh.
      destruct (attempts_rejected "" [] pre Hpre 0%nat (app w))
        as (Hf & Hctx & _ & Hg).
      destruct (Hcall Hc Ha (app w)) as (Hinv & Hafter & Hout).
      specialize (Hout Hh).
      pose proof (attempts_app "" [] pre (we :: post) 0 (app w) Hf) as Happ.
      cbv zeta in Happ. rewrite <- Hcl, Hctx, Hg in Happ.
      simpl in Happ. rewrite Hout in Happ. unfold g_call in Happ.
      rewrite Hinv in Happ.
      eexists. split.
      * unfold resolve. change (tokenize "") with ("", @nil string).
        cbv iota beta zeta. rewrite Happ. cbn [returned]. reflexivity.
      * unfold after_loop. simpl. rewrite Hafter. repeat split.
Qed.

(** The commands ['foo'] and [''] on the empty line. *)
Lemma C8_empty_syntax_witness :
  exists w',
    resolve 1 (mkWorld [bind "foo" accept; bind "" accept] tt false [] []) ""
    = Some w'
    /\ g_handlers w' = [(1%nat, [])].
Proof.
  destruct (C8_empty_syntax (bind "" accept)
              (mkWorld [bind "foo" accept; bind "" accept] tt false [] [])
              [bind "foo" accept] [] 0)
    as (_ & _ & _ & _ & _ & _ & H).
  destruct H as (w' & Hr & Hg & _).
  - reflexivity.
  - reflexivity.
  - reflexivity.
  - constructor; [|constructor]. eexists. reflexivity.
  - reflexivity.
  - exists w'. split; [exact Hr | exact Hg].
Defined.

(** C8, against the claim as stated: the part compiled from the empty
    string has one option, the empty string, not none. *)
Lemma C8_counterexample :
  options (Part_init "") = [""]
  /\ length (options (Part_init "")) = 1%nat
  /\ options (Part_init "") <> [].
Proof. repeat split. discriminate. Qed.

(** ** The help fallback *)

(** In the state IN_FALLBACK [resolve] does not call itself: any fuel is
    enough, and when no wrapper returned [True] the message is written. *)
Lemma resolve_in_fallback {Ctx : Type} (w : World Ctx) (user_input : string)
    (fuel : nat) :
  in_fallback w ->
  let l := attempts 0 (command_list w) (app w)
             (fst (tokenize user_input)) (snd (tokenize user_input)) in
  resolve (S fuel) w user_input
  = Some (if returned l then after_loop w l
          else write ["No additional help found." ++ LF] (after_loop w l)).
Proof.
  intros Hf l. subst l. unfold in_fallback in Hf. unfold resolve.
  destruct (tokenize user_input) as [c a]. simpl.
  destruct (returned (attempts 0 (command_list w) (app w) c a));
    [reflexivity|].
  rewrite Hf.
  destruct (logged_exceptions (attempts 0 (command_list w) (app w) c a));
    reflexivity.
Qed.

(** In the state NORMAL, when no wrapper returned [True], [resolve] calls
    itself once, on ['help'] and in the state IN_FALLBACK, and clears the
    flag afterwards. *)
Lemma resolve_normal {Ctx : Type} (w : World Ctx) (user_input : string)
    (fuel : nat) :
  normal w ->
  let cmd := fst (tokenize user_input) in
  let l := attempts 0 (command_list w) (app w) cmd
             (snd (tokenize user_input)) in
  returned l = false ->
  resolve (S (S fuel)) w user_input
  = match resolve (S fuel) (fallback_world w l cmd) "help" with
    | Some w3 => Some (set_help_search false w3)
    | None => None
    end
  /\ resolve 1 w user_input = None.
Proof.
  intros Hn cmd l Hr. subst cmd l. unfold normal in Hn.
  unfold fallback_world, diagnostics.
  destruct (tokenize user_input) as [c a] eqn:Ht. simpl in *.
  destruct (logged_exceptions (attempts 0 (command_list w) (app w) c a))
    as [|e es] eqn:Hl.
  - destruct (Py.truthy c) eqn:Hc.
    + split.
      * cbn [resolve]. rewrite Ht. cbv zeta. rewrite Hr, Hl. simpl.
        rewrite Hn, Hc. reflexivity.
      * cbn [resolve]. rewrite Ht. cbv zeta. rewrite Hr, Hl. simpl.
        rewrite Hn, Hc. reflexivity.
    + rewrite app_nil_r. split.
      * cbn [resolve]. rewrite Ht. cbv zeta. rewrite Hr, Hl. simpl.
        rewrite Hn, Hc. reflexivity.
      * cbn [resolve]. rewrite Ht. cbv zeta. rewrite Hr, Hl. simpl.
        rewrite Hn, Hc. reflexivity.
  - split.
    + cbn [resolve]. rewrite Ht. cbv zeta. rewrite Hr, Hl. simpl.
      rewrite Hn. reflexivity.
    + cbn [resolve]. rewrite Ht. cbv zeta. rewrite Hr, Hl. simpl.
      rewrite Hn. reflexivity.
Qed.

Lemma resolve_returned {Ctx : Type} (w : World Ctx) (user_input : string)
    (fuel : nat) :
  let l := attempts 0 (command_list w) (app w)
             (fst (tokenize user_input)) (snd (tokenize user_input)) in
  returned l = true ->
  resolve (S fuel) w user_input = Some (after_loop w l).
Proof.
  intros l H. subst l. unfold resolve.
  destruct (tokenize user_input) as [c a]. simpl in *.
  rewrite H. reflexivity.
Qed.

(** C6: in the state IN_FALLBACK [resolve] never calls itself: when no
    wrapper returns [True] it writes ['No additional help found.'] and
    returns, the flag still set.  In the state NORMAL it calls itself at
    most once, in the state IN_FALLBACK, and the flag is cleared when that
    call has returned: for every input, one nested call is enough. *)
Theorem C6_help_fallback_once {Ctx : Type} (w : World Ctx)
    (user_input : string) (fuel : nat) :
  let cmd := fst (tokenize user_input) in
  let l := attempts 0 (command_list w) (app w) cmd
             (snd (tokenize user_input)) in
  (in_fallback w ->
   exists w',
     resolve 1 w user_input = Some w'
     /\ resolve (S fuel) w user_input = Some w'
     /\ in_fallback w'
     /\ (returned l = false ->
         w' = write [("No additional help found." ++ LF)%string]
                (after_loop w l)
         /\ stdout w'
            = (stdout w ++ [("No additional help found." ++ LF)%string])%list
         /\ g_handlers w' = (g_handlers w ++ g_calls l)%list))
  /\ (normal w ->
      exists w',
        resolve 2 w user_input = Some w'
        /\ resolve (S (S fuel)) w user_input = Some w'
        /\ normal w'
        /\ (returned l = false ->
            resolve 1 w user_input = None
            /\ in_fallback (fallback_world w l cmd)
            /\ exists w3,
                 resolve 1 (fallback_world w l cmd) "help" = Some w3
                 /\ w' = set_help_search false w3)).
Proof.
  intros cmd l. split.
  - intro Hf.
    pose proof (resolve_in_fallback w user_input 0 Hf) as H1.
    pose proof (resolve_in_fallback w user_input fuel Hf) as H2.
    cbv zeta in H1, H2. fold cmd in H1, H2. fold l in H1, H2.
    eexists. split; [exact H1|]. split; [exact H2|]. split.
    + unfold in_fallback in *. destruct (returned l); simpl; exact Hf.
    + intros ->. repeat split.
  - intro Hn. destruct (returned l) eqn:Hr.
    + exists (after_loop w l).
      split; [apply (resolve_returned w user_input 1 Hr)|].
      split; [apply (resolve_returned w user_input (S fuel) Hr)|].
      split; [exact Hn | discriminate].
    + destruct (resolve_normal w user_input 0 Hn Hr) as (Hres & Hnone).
      destruct (resolve_normal w user_input fuel Hn Hr) as (Hres' & _).
      fold cmd in Hres, Hres'. fold l in Hres, Hres'.
      assert (Hf2 : in_fallback (fallback_world w l cmd)) by reflexivity.
      pose proof (resolve_in_fallback _ "help" 0 Hf2) as Hhelp.
      pose proof (resolve_in_fallback _ "help" fuel Hf2) as Hhelp'.
      cbv zeta in Hhelp, Hhelp'.
      rewrite Hhelp in Hres. rewrite Hhelp' in Hres'.
      eexists. split; [exact Hres|]. split; [exact Hres'|].
      split; [reflexivity|]. intros _.
      split; [exact Hnone|]. split; [exact Hf2|].
      eexists. split; [exact Hhelp | reflexivity].
Qed.

(** The commands ['foo <x>'] and ['bar <y>'], without a help command: on
    ['help'] in the state IN_FALLBACK, and on ['baz'] in the state
    NORMAL. *)
Lemma C6_help_fallback_once_witness :
  (exists w',
     resolve 1
       (mkWorld [bind "foo <x>" accept; bind "bar <y>" accept] tt true [] [])
       "help" = Some w'
     /\ in_fallback w'
     /\ stdout w' = [("No additional help found." ++ LF)%string])
  /\ (exists w',
        resolve 2
          (mkWorld [bind "foo <x>" accept; bind "bar <y>" accept] tt false
             [] [])
          "baz" = Some w'
        /\ normal w').
Proof.
  split.
  - destruct (C6_help_fallback_once
                (mkWorld [bind "foo <x>" accept; bind "bar <y>" accept] tt
                   true [] [])
                "help" 0) as [H _].
    destruct (H eq_refl) as (w' & H1 & _ & Hf & Hm).
    destruct (Hm eq_refl) as (_ & Hs & _).
    exists w'. split; [exact H1|]. split; [exact Hf | exact Hs].
  - destruct (C6_help_fallback_once
                (mkWorld [bind "foo <x>" accept; bind "bar <y>" accept] tt
                   false [] [])
                "baz" 0) as [_ H].
    destruct (H eq_refl) as (w' & H2 & _ & Hn & _).
    exists w'. split; [exact H2 | exact Hn].
Defined.

(** ** The tokenizer *)

Lemma str_app_nil_r (s : string) : s ++ "" = s.
Proof. induction s as [|c s IH]; simpl; [reflexivity | rewrite IH; reflexivity]. Qed.

Lemma str_app_assoc (s t u : string) : (s ++ t) ++ u = s ++ (t ++ u).
Proof.
  induction s as [|c s IH]; simpl; [reflexivity | rewrite IH; reflexivity].
Qed.

Lemma all_chars_app (P : ascii -> bool) (s t : string) :
  all_chars P (s ++ t) = all_chars P s && all_chars P t.
Proof.
  induction s as [|c s IH]; simpl; [reflexivity|].
  rewrite IH, andb_assoc. reflexivity.
Qed.

Lemma truthy_app_r (s t : string) :
  Py.truthy t = true -> Py.truthy (s ++ t) = true.
Proof. destruct s; simpl; auto. Qed.

(** The pieces hold no separator, when the piece being read holds none. *)
Lemma pieces_no_sep (sep : ascii -> bool) (s : string) :
  forall cur,
    all_chars (fun c => negb (sep c)) cur = true ->
    Forall (fun t => all_chars (fun c => negb (sep c)) t = true)
      (Py.pieces sep s cur).
Proof.
  induction s as [|c s IH]; intros cur Hc; simpl.
  - constructor; [exact Hc | constructor].
  - destruct (sep c) eqn:Hs.
    + constructor; [exact Hc | apply IH; reflexivity].
    + apply IH. rewrite all_chars_app, Hc. simpl. rewrite Hs. reflexivity.
Qed.

(** A piece that has begun is not lost. *)
Lemma pieces_begun (sep : ascii -> bool) (s : string) :
  forall cur,
    Py.truthy cur = true -> filter Py.truthy (Py.pieces sep s cur) <> [].
Proof.
  induction s as [|c s IH]; intros cur Hc; simpl.
  - rewrite Hc. discriminate.
  - destruct (sep c).
    + simpl. rewrite Hc. discriminate.
    + apply IH. apply truthy_app_r. reflexivity.
Qed.

Lemma split_nil_iff (s : string) : Py.split s = [] <-> blank s = true.
Proof.
  unfold Py.split, blank. induction s as [|c s IH]; simpl.
  - split; reflexivity.
  - destruct (Py.isspace c); simpl.
    + exact IH.
    + split; [|discriminate]. intro H. exfalso.
      apply (pieces_begun Py.isspace s (String c "") eq_refl). exact H.
Qed.

(** Reading a string without separators extends the piece being read. *)
Lemma pieces_app_token (sep : ascii -> bool) (t s : string) :
  forall cur,
    all_chars (fun c => negb (sep c)) t = true ->
    Py.pieces sep (t ++ s) cur = Py.pieces sep s (cur ++ t).
Proof.
  induction t as [|c t IH]; intros cur Ht; simpl in *.
  - rewrite str_app_nil_r. reflexivity.
  - apply andb_true_iff in Ht. destruct Ht as [Hc Ht].
    apply negb_true_iff in Hc. rewrite Hc.
    rewrite (IH _ Ht), str_app_assoc. reflexivity.
Qed.

Lemma split_all_tokens (s : string) :
  Forall (fun t => is_token t = true) (Py.split s).
Proof.
  unfold Py.split. apply Forall_forall. intros t Ht.
  apply filter_In in Ht. destruct Ht as [Hin Htr].
  unfold is_token. rewrite Htr. simpl.
  pose proof (pieces_no_sep Py.isspace s "" eq_refl) as HF.
  rewrite Forall_forall in HF. apply (HF t Hin).
Qed.

(** X1: every token that [str.split()] yields is nonempty and holds no
    white space; no token is lost: a string that holds a character that is
    not white space yields at least one token. *)
Theorem X1_split_tokens (s : string) :
  Forall (fun t => is_token t = true) (Py.split s)
  /\ (blank s = false -> Py.split s <> []).
Proof.
  split; [apply split_all_tokens|].
  intros Hb Hs. apply split_nil_iff in Hs. congruence.
Qed.

Lemma split_of_join (toks : list string) :
  Forall (fun t => is_token t = true) toks ->
  Py.split (Py.join " " toks) = toks.
Proof.
  unfold Py.split, Py.join.
  induction 1 as [|t toks Ht HF IH]; [reflexivity|].
  unfold is_token in Ht. apply andb_true_iff in Ht. destruct Ht as [Hne Hns].
  destruct toks as [|t2 toks].
  - simpl. rewrite <- (str_app_nil_r t) at 1.
    rewrite (pieces_app_token Py.isspace t "" "" Hns). simpl.
    rewrite Hne. reflexivity.
  - change (String.concat " " (t :: t2 :: toks))
      with (t ++ String " " (String.concat " " (t2 :: toks))).
    rewrite (pieces_app_token Py.isspace t _ "" Hns). simpl.
    rewrite Hne. f_equal. exact IH.
Qed.

(** X2: joining tokens with single blanks and splitting again gives the
    tokens back. *)
Theorem X2_split_join (toks : list string) :
  Forall (fun t => is_token t = true) toks ->
  Py.split (Py.join " " toks) = toks.
Proof. exact (split_of_join toks). Qed.

(** The tokens ['set'], ['a|b'] and ['[<v>]']. *)
Lemma X2_split_join_witness :
  Py.split (Py.join " " ["set"; "a|b"; "[<v>]"]) = ["set"; "a|b"; "[<v>]"].
Proof.
  apply (X2_split_join ["set"; "a|b"; "[<v>]"]).
  repeat constructor.
Defined.

(** X3: the command token of a line is empty exactly when the line is
    blank (empty, or white space only); the line then has no argument
    tokens.  On every line the argument tokens are nonempty, and a
    nonempty command token holds no white space. *)
Theorem X3_tokenize_blank (s : string) :
  (fst (tokenize s) = "" <-> blank s = true)
  /\ (blank s = true -> tokenize s = ("", []))
  /\ Forall (fun t => is_token t = true) (snd (tokenize s))
  /\ (fst (tokenize s) <> "" -> is_token (fst (tokenize s)) = true).
Proof.
  pose proof (split_nil_iff s) as Hnil.
  pose proof (split_all_tokens s) as HF.
  unfold tokenize. destruct (Py.split s) as [|c a]; simpl.
  - split; [split; intro; [apply Hnil|]; reflexivity|].
    split; [reflexivity|]. split; [constructor|]. intro H; contradiction.
  - inversion HF as [|? ? Hc Ha]; subst.
    assert (Hcne : c <> "").
    { unfold is_token in Hc. apply andb_true_iff in Hc.
      apply truthy_spec. apply Hc. }
    split; [split|].
    + intro; contradiction.
    + intro Hb. apply Hnil in Hb. discriminate.
    + split; [|split; [exact Ha | intros _; exact Hc]].
      intro Hb. apply Hnil in Hb. discriminate.
Qed.

(** ** The grammar compiler *)

(** The list comprehension of [_Part.__init__], from any state. *)
Lemma scan_options (l : list string) :
  forall (fname : string) (kept : list string),
    fold_left scan_option l (fname, kept)
    = (if Py.truthy fname then fname
       else match find names_slot l with
            | Some o => Py.strip_ends o
            | None => ""
            end,
       (kept ++ filter (fun o => negb (is_free o)) l)%list).
Proof.
  induction l as [|o l IH]; intros fname kept; simpl.
  - rewrite app_nil_r. destruct fname; reflexivity.
  - unfold names_slot, is_free in *.
    destruct (_enclosed o "<" ">") eqn:He; simpl.
    + destruct (Py.truthy fname) eqn:Hf; simpl.
      * rewrite IH, Hf. reflexivity.
      * rewrite IH. destruct (Py.truthy (Py.strip_ends o)); reflexivity.
    + rewrite IH, <- app_assoc. reflexivity.
Qed.

Lemma Part_init_fields (s : string) :
  _str (Part_init s) = s
  /\ mandatory (Part_init s) = negb (_enclosed s "[" "]")
  /\ options (Part_init s)
     = filter (fun o => negb (is_free o)) (alternatives s)
  /\ free_name (Part_init s)
     = match find names_slot (alternatives s) with
       | Some o => Py.strip_ends o
       | None => ""
       end.
Proof.
  unfold Part_init, alternatives.
  destruct (_enclosed s "[" "]"); simpl; rewrite scan_options; simpl;
    repeat split.
Qed.

(** X4: a compiled part keeps its text; it is optional exactly when the
    text is enclosed in brackets; its options are the alternatives that are
    not written [<...>], in order; its free name is the name of the first
    alternative written [<NAME>] with a nonempty name, and every other
    such alternative is dropped.  So no option is written [<...>]. *)
Theorem X4_Part_init_compiles (s : string) :
  _str (Part_init s) = s
  /\ mandatory (Part_init s) = negb (_enclosed s "[" "]")
  /\ options (Part_init s)
     = filter (fun o => negb (is_free o)) (alternatives s)
  /\ free_name (Part_init s)
     = match find names_slot (alternatives s) with
       | Some o => Py.strip_ends o
       | None => ""
       end
  /\ Forall (fun o => is_free o = false) (options (Part_init s)).
Proof.
  destruct (Part_init_fields s) as (H1 & H2 & H3 & H4).
  repeat split; try assumption.
  rewrite H3. apply Forall_forall. intros o Ho.
  apply filter_In in Ho. destruct Ho as [_ Ho].
  apply negb_true_iff. exact Ho.
Qed.

(** X5: what is written in the grammar is accepted: an alternative of the
    part that is not a free option matches as itself, without a name; and
    when an alternative names a free slot, every nonempty token
    matches. *)
Theorem X5_compiled_part_accepts (s t : string) :
  (In t (alternatives s) -> is_free t = false ->
   match_ (Part_init s) t = inl (mkArgument t None))
  /\ (existsb names_slot (alternatives s) = true -> t <> "" ->
      exists a, match_ (Part_init s) t = inl a /\ value a = t).
Proof.
  destruct (Part_init_fields s) as (_ & _ & Ho & Hf).
  split.
  - intros Hin Hfree. unfold match_.
    destruct (in_dec string_dec t (options (Part_init s))) as [i|n];
      [reflexivity|].
    exfalso. apply n. rewrite Ho. apply filter_In. split; [exact Hin|].
    rewrite Hfree. reflexivity.
  - intros Hex Ht. unfold match_.
    destruct (in_dec string_dec t (options (Part_init s))) as [i|n];
      [eexists; split; reflexivity|].
    assert (Hfn : Py.truthy (free_name (Part_init s)) = true).
    { rewrite Hf. apply existsb_exists in Hex.
      destruct Hex as (o & Hin & Hns).
      destruct (find names_slot (alternatives s)) as [o'|] eqn:Hfind.
      - apply find_some in Hfind. destruct Hfind as [_ Hns'].
        unfold names_slot in Hns'. apply andb_true_iff in Hns'. apply Hns'.
      - exfalso. apply (find_none _ _ Hfind) in Hin. congruence. }
    apply truthy_spec in Ht. rewrite Hfn, Ht. simpl.
    eexists; split; reflexivity.
Qed.

(** The part ['once|<n>|<m>'] on ['once'] and on ['7']. *)
Lemma X5_compiled_part_accepts_witness :
  match_ (Part_init "once|<n>|<m>") "once" = inl (mkArgument "once" None)
  /\ exists a, match_ (Part_init "once|<n>|<m>") "7" = inl a /\ value a = "7".
Proof.
  split.
  - apply (X5_compiled_part_accepts "once|<n>|<m>" "once").
    + simpl. auto.
    + reflexivity.
  - apply (X5_compiled_part_accepts "once|<n>|<m>" "7").
    + reflexivity.
    + discriminate.
Defined.

Lemma last_app_char (s : string) (c : ascii) :
  Py.last (s ++ String c "") = Some c.
Proof.
  induction s as [|d s IH]; simpl; [reflexivity|].
  rewrite IH. destruct (s ++ String c ""); [discriminate | reflexivity].
Qed.

Lemma drop_last_app_char (s : string) (c : ascii) :
  Py.drop_last (s ++ String c "") = s.
Proof.
  induction s as [|d s IH]; simpl; [reflexivity|].
  rewrite IH. destruct (s ++ String c "") eqn:E; [|reflexivity].
  destruct s; discriminate.
Qed.

(** X6: brackets make a part optional and change nothing else: the part
    compiled from ['[' + body + ']'] is optional, and has the options and
    the free name of the part compiled from [body] (a body that is not
    itself in brackets). *)
Theorem X6_brackets_only_optional (body : string) :
  _enclosed body "[" "]" = false ->
  mandatory (Part_init ("[" ++ body ++ "]")) = false
  /\ mandatory (Part_init body) = true
  /\ options (Part_init ("[" ++ body ++ "]")) = options (Part_init body)
  /\ free_name (Part_init ("[" ++ body ++ "]")) = free_name (Part_init body).
Proof.
  intro Hb.
  assert (He : _enclosed ("[" ++ body ++ "]") "[" "]" = true).
  { assert (Hl : Py.last ("[" ++ body ++ "]") = Some "]"%char)
      by apply (last_app_char (String "[" body) "]").
    unfold _enclosed. rewrite Hl. reflexivity. }
  assert (Hs : Py.strip_ends ("[" ++ body ++ "]") = body).
  { simpl. apply drop_last_app_char. }
  destruct (Part_init_fields ("[" ++ body ++ "]")) as (_ & Hm & Ho & Hf).
  destruct (Part_init_fields body) as (_ & Hm' & Ho' & Hf').
  unfold alternatives in *. rewrite He, Hs in *. rewrite Hb in *.
  repeat split; try assumption; congruence.
Qed.

(** The body ['a|<x>']. *)
Lemma X6_brackets_only_optional_witness :
  options (Part_init "[a|<x>]") = options (Part_init "a|<x>")
  /\ free_name (Part_init "[a|<x>]") = free_name (Part_init "a|<x>").
Proof.
  destruct (X6_brackets_only_optional "a|<x>" eq_refl) as (_ & _ & H1 & H2).
  split; [exact H1 | exact H2].
Defined.

Lemma concat_empty_cons (y : string) (ys : list string) :
  String.concat "" (y :: ys) = y ++ String.concat "" ys.
Proof.
  destruct ys; simpl; [rewrite str_app_nil_r|]; reflexivity.
Qed.

Lemma concat_prefixed (c : string) (a : list string) :
  c ++ String.concat "" (map (fun p => " " ++ p) a)
  = String.concat " " (c :: a).
Proof.
  revert c. induction a as [|x a IH]; intro c.
  - simpl. apply str_app_nil_r.
  - change (String.concat " " (c :: x :: a))
      with (c ++ " " ++ String.concat " " (x :: a)).
    rewrite <- (IH x). cbn [map]. rewrite concat_empty_cons.
    rewrite (str_app_assoc " " x). reflexivity.
Qed.

Lemma Command_str_split (s : string) :
  Command_str (Command_init s) = Py.join " " (Py.split s).
Proof.
  unfold Command_init, Py.join.
  destruct (Py.split s) as [|c a]; [reflexivity|].
  cbn [Command_str].
  rewrite map_map.
  rewrite (map_ext (fun p => " " ++ _str (Part_init p))
             (fun p => " " ++ p)).
  - rewrite (proj1 (Part_init_fields c)). apply concat_prefixed.
  - intro p. rewrite (proj1 (Part_init_fields p)). reflexivity.
Qed.

(** X7: the text of a command is its syntax with the parts separated by
    single blanks, and compiling that text gives the same command: the
    syntax shown in the help is a syntax of the command. *)
Theorem X7_Command_text_round_trip (s : string) :
  Command_str (Command_init s) = Py.join " " (Py.split s)
  /\ Py.split (Command_str (Command_init s)) = Py.split s
  /\ Command_init (Command_str (Command_init s)) = Command_init s.
Proof.
  pose proof (Command_str_split s) as H1.
  assert (H2 : Py.split (Command_str (Command_init s)) = Py.split s).
  { rewrite H1. apply split_of_join, split_all_tokens. }
  split; [exact H1|]. split; [exact H2|].
  unfold Command_init at 1. rewrite H2.
  unfold Command_init. destruct (Py.split s); reflexivity.
Qed.

(** ** The command matcher: more properties *)

Lemma same_command_set_state {Ctx : Type} (w : Wrapper Ctx)
    (x : option ParsingError) (b : Z) :
  same_command w (set_state w x b).
Proof. repeat split. Qed.

Lemma same_command_eq {Ctx : Type} (w w' : Wrapper Ctx) :
  same_command w w' ->
  w' = set_state w (_first_exception w') (_badness w').
Proof.
  destruct w, w'. unfold same_command. simpl.
  intros (-> & -> & -> & ->). reflexivity.
Qed.

Lemma same_command_trans {Ctx : Type} (a b c : Wrapper Ctx) :
  same_command a b -> same_command b c -> same_command a c.
Proof.
  unfold same_command. intros (? & ? & ? & ?) (? & ? & ? & ?).
  repeat split; congruence.
Qed.

Lemma same_command_sym {Ctx : Type} (a b : Wrapper Ctx) :
  same_command a b -> same_command b a.
Proof.
  unfold same_command. intros (? & ? & ? & ?). repeat split; congruence.
Qed.

Lemma call_same_command {Ctx : Type} (w : Wrapper Ctx) (ctx : Ctx)
    (cmd : string) (ua : list string) :
  same_command w (self_after (call w ctx cmd ua)).
Proof.
  unfold call. destruct (match_ (_command w) cmd) as [a|e].
  - destruct (run_handler w ctx (parse w a cmd ua)) as [[f c] inv].
    unfold conclude. destruct (self_first_exception f);
      apply same_command_set_state.
  - apply same_command_set_state.
Qed.

(** X8: a call returns [False] exactly when the command part rejects the
    command token; the call then has no effect: the application and the
    badness counter are as before, the error slot is empty, no handler is
    called and nothing is logged. *)
Theorem X8_call_false_iff {Ctx : Type} (w : Wrapper Ctx) (ctx : Ctx)
    (cmd : string) (ua : list string) :
  let r := call w ctx cmd ua in
  (outcome r = ReturnFalse <-> match_ (_command w) cmd
                              = inr (_InvalidOption (_command w) cmd))
  /\ (outcome r = ReturnFalse ->
      ctx_after r = ctx
      /\ self_after r = set_state w None (_badness w)
      /\ g_invoked r = None
      /\ g_errors r = []).
Proof.
  intro r. subst r.
  destruct (match_ (_command w) cmd) as [a|e] eqn:Hm.
  - pose proof (call_not_false w ctx cmd ua a Hm) as Hnf.
    split; [split; intro H; [contradiction | discriminate]|].
    intro H; contradiction.
  - rewrite (false_no_effect w ctx cmd ua e Hm). simpl.
    rewrite (match_inr _ _ _ Hm).
    split; [split; reflexivity | repeat split].
Qed.

(** The wrapper of ['foo <x>'] on ['bar 1']. *)
Lemma X8_call_false_iff_witness :
  ctx_after (call (bind "foo <x>" accept) tt "bar" ["1"]) = tt
  /\ g_invoked (call (bind "foo <x>" accept) tt "bar" ["1"]) = None.
Proof.
  destruct (X8_call_false_iff (bind "foo <x>" accept) tt "bar" ["1"])
    as [_ H].
  destruct (H eq_refl) as (H1 & _ & H3 & _).
  split; [exact H1 | exact H3].
Defined.

(** X9: a call never raises the badness counter, and lowers it by at most
    3 and one for every user argument; a call that reaches the handler
    lowers it by exactly one for every user argument, and by 3 more when
    the command token is one of the options of the command part. *)
Theorem X9_badness_counter_bounds {Ctx : Type} (w : Wrapper Ctx) (ctx : Ctx)
    (cmd : string) (ua : list string) :
  let r := call w ctx cmd ua in
  _badness w - 3 - Z.of_nat (length ua) <= _badness (self_after r)
  /\ _badness (self_after r) <= _badness w
  /\ (g_invoked r <> None ->
      _badness (self_after r)
      = (if in_dec string_dec cmd (options (_command w))
         then _badness w - 3 else _badness w) - Z.of_nat (length ua)).
Proof.
  intro r. subst r.
  destruct (match_ (_command w) cmd) as [a|e] eqn:Hm.
  - destruct (call_badness w ctx cmd ua a Hm) as (Hb & Hle & Hall & _).
    cbv zeta in *. rewrite Hb.
    destruct (in_dec string_dec cmd (options (_command w)));
      repeat split; try lia; intro Hinv; rewrite (Hall Hinv); reflexivity.
  - rewrite (false_no_effect w ctx cmd ua e Hm). simpl.
    repeat split; try lia. intro H; contradiction.
Qed.

(** The wrapper of ['set <k> <v>'] on ['set a b']. *)
Lemma X9_badness_counter_bounds_witness :
  _badness (self_after (call (bind "set <k> <v>" accept) tt "set" ["a"; "b"]))
  = 10000 - 3 - 2.
Proof.
  destruct (X9_badness_counter_bounds (bind "set <k> <v>" accept) tt "set"
              ["a"; "b"]) as (_ & _ & H).
  apply H. discriminate.
Defined.

Section Shift.

Variable user_args : list string.
Variable k : Z.

Lemma pull_shift (f : Frame) :
  pull user_args (shift k f) = shift k (pull user_args f).
Proof.
  destruct f as [ra [t|] ix fe b gl gm]; unfold pull, shift; simpl;
    [reflexivity|].
  destruct (nth_error user_args ix); reflexivity.
Qed.

Lemma walk_shift (parts : list Part) :
  forall f,
    walk user_args parts (shift k f) = shift k (walk user_args parts f).
Proof.
  induction parts as [|part rest IH]; intro f; [reflexivity|].
  rewrite !walk_cons. cbv zeta. rewrite pull_shift.
  set (f1 := pull user_args f).
  change (user_arg (shift k f1)) with (user_arg f1).
  destruct (match user_arg f1 with
            | None => mandatory part
            | Some _ => false
            end); [reflexivity|].
  destruct (match_ part (or_empty (user_arg f1))) as [a|e].
  - destruct (Py.truthy (value a)).
    + rewrite <- IH. f_equal. unfold matched, append_resolved, shift. simpl.
      f_equal. lia.
    + rewrite <- IH. reflexivity.
  - rewrite <- IH. reflexivity.
Qed.

Lemma check_redundant_shift (f : Frame) :
  check_redundant user_args (shift k f)
  = shift k (check_redundant user_args f).
Proof.
  destruct f as [ra [t|] ix fe b gl gm]; unfold check_redundant, shift;
    simpl; [reflexivity|].
  destruct (nth_error user_args ix); reflexivity.
Qed.

End Shift.

Lemma call_shift {Ctx : Type} (w : Wrapper Ctx) (ctx : Ctx) (cmd : string)
    (ua : list string) (x : option ParsingError) (k : Z) :
  let r := call w ctx cmd ua in
  let r' := call (set_state w x (_badness w + k)) ctx cmd ua in
  outcome r' = shift_outcome k (outcome r)
  /\ ctx_after r' = ctx_after r
  /\ g_invoked r' = g_invoked r
  /\ g_errors r' = g_errors r
  /\ g_consumed r' = g_consumed r
  /\ _badness (self_after r') = _badness (self_after r) + k.
Proof.
  intros r r'. subst r r'. unfold call. simpl.
  destruct (match_ (_command w) cmd) as [a|e]; [|repeat split].
  assert (Hp : parse (set_state w x (_badness w + k)) a cmd ua
               = shift k (parse w a cmd ua)).
  { unfold parse. simpl.
    rewrite <- check_redundant_shift, <- walk_shift. do 2 f_equal.
    unfold start_frame, shift. simpl. f_equal.
    destruct (in_dec string_dec cmd (options (_command w))); lia. }
  rewrite Hp. unfold run_handler. simpl.
  destruct (self_first_exception (parse w a cmd ua)) as [e0|] eqn:H0.
  - unfold conclude. simpl. rewrite H0. simpl.
    repeat split. unfold set_badness. simpl. do 2 f_equal. lia.
  - destruct (_handler w ctx (resolved_args (parse w a cmd ua)))
      as [c [e|]].
    + unfold conclude. simpl. rewrite H0. simpl.
      repeat split. unfold set_badness. simpl. do 2 f_equal. lia.
    + unfold conclude. simpl. rewrite H0. simpl. repeat split.
Qed.

(** X10: the badness counter and the error slot a wrapper starts with have
    no influence on what a call does, but for the badness of the error it
    raises: with the counter [k] higher, the same error is raised with a
    badness [k] higher, and the same handler call is made, with the same
    arguments and the same result. *)
Theorem X10_counter_shifts_badness_only {Ctx : Type} (w w' : Wrapper Ctx)
    (ctx : Ctx) (cmd : string) (ua : list string) :
  same_command w w' ->
  let r := call w ctx cmd ua in
  let r' := call w' ctx cmd ua in
  outcome r' = shift_outcome (_badness w' - _badness w) (outcome r)
  /\ ctx_after r' = ctx_after r
  /\ g_invoked r' = g_invoked r
  /\ g_errors r' = g_errors r
  /\ _badness (self_after r') - _badness w'
     = _badness (self_after r) - _badness w.
Proof.
  intros Hs r r'. subst r r'.
  set (k := _badness w' - _badness w).
  assert (Hw' : set_state w (_first_exception w') (_badness w + k) = w').
  { transitivity (set_state w (_first_exception w') (_badness w'));
      [f_equal; unfold k; lia | symmetry; apply same_command_eq; exact Hs]. }
  destruct (call_shift w ctx cmd ua (_first_exception w') k)
    as (H1 & H2 & H3 & H4 & _ & H6).
  cbv zeta in *. rewrite Hw' in H1, H2, H3, H4, H6.
  rewrite H1, H2, H3, H4, H6. unfold k.
  repeat split; try lia.
Qed.

(** The wrapper of ['foo <x>'], fresh and with the counter at 9996, on
    ['foo a b']. *)
Lemma X10_counter_shifts_badness_only_witness :
  outcome (call (set_state (bind "foo <x>" accept) None 9996) tt "foo"
             ["a"; "b"])
  = Raise (set_badness (_Redundant "b") 9996).
Proof.
  destruct (X10_counter_shifts_badness_only
              (bind "foo <x>" accept)
              (set_state (bind "foo <x>" accept) None 9996)
              tt "foo" ["a"; "b"]) as [H _].
  - repeat split.
  - exact H.
Defined.

Lemma call_same {Ctx : Type} (w w' : Wrapper Ctx) (ctx : Ctx) (cmd : string)
    (ua : list string) :
  same_command w w' ->
  outcome (call w' ctx cmd ua)
  = shift_outcome (_badness w' - _badness w) (outcome (call w ctx cmd ua))
  /\ ctx_after (call w' ctx cmd ua) = ctx_after (call w ctx cmd ua)
  /\ g_invoked (call w' ctx cmd ua) = g_invoked (call w ctx cmd ua)
  /\ same_command (self_after (call w ctx cmd ua))
       (self_after (call w' ctx cmd ua)).
Proof.
  intro Hs.
  assert (Hw' : set_state w (_first_exception w')
                  (_badness w + (_badness w' - _badness w)) = w').
  { transitivity (set_state w (_first_exception w') (_badness w'));
      [f_equal; lia | symmetry; apply same_command_eq; exact Hs]. }
  destruct (call_shift w ctx cmd ua (_first_exception w')
              (_badness w' - _badness w)) as (H1 & H2 & H3 & _).
  cbv zeta in *. rewrite Hw' in H1, H2, H3.
  repeat split; try assumption;
    pose proof (call_same_command w ctx cmd ua) as (A1 & A2 & A3 & A4);
    pose proof (call_same_command w' ctx cmd ua) as (B1 & B2 & B3 & B4);
    destruct Hs as (S1 & S2 & S3 & S4); congruence.
Qed.

Lemma attempts_same {Ctx : Type} (cmd : string) (ua : list string)
    (cl cl' : list (Wrapper Ctx)) :
  Forall2 same_command cl cl' ->
  forall (pos : nat) (ctx : Ctx),
    let l := attempts pos cl ctx cmd ua in
    let l' := attempts pos cl' ctx cmd ua in
    returned l = returned l'
    /\ loop_ctx l = loop_ctx l'
    /\ g_calls l = g_calls l'
    /\ Forall2 same_command (wrappers l) (wrappers l')
    /\ Forall2 same_error (logged_exceptions l) (logged_exceptions l').
Proof.
  induction 1 as [|w w' cl cl' Hs HF IH]; intros pos ctx; cbv zeta.
  - simpl. repeat split; constructor.
  - simpl. destruct (call_same w w' ctx cmd ua Hs) as (Ho & Hc & Hi & Hw).
    rewrite Ho. unfold g_call. rewrite Hi, Hc.
    destruct (IH (S pos) (ctx_after (call w ctx cmd ua)))
      as (I1 & I2 & I3 & I4 & I5).
    destruct (outcome (call w ctx cmd ua)); simpl.
    + repeat split; constructor; assumption.
    + rewrite I1, I2, I3. repeat split; try assumption.
      constructor; assumption.
    + rewrite I1, I2, I3. repeat split.
      * constructor; assumption.
      * constructor; [split; reflexivity | assumption].
Qed.

(** X11: the badness counters and error slots of the wrappers have no
    influence on dispatch: from two worlds that differ at most in them (and
    in what was written before), [resolve] calls the same handlers with
    the same arguments, leaves the same application and the same flag, and
    the same commands in the list. *)
Theorem X11_dispatch_ignores_counters {Ctx : Type} (fuel : nat)
    (w w' : World Ctx) (user_input : string) :
  same_dispatch w w' ->
  same_result (resolve fuel w user_input) (resolve fuel w' user_input).
Proof.
  revert w w' user_input.
  induction fuel as [|fuel IH]; intros w w' user_input Hs; [exact I|].
  destruct Hs as (Hcl & Happ & Hflag & Hg).
  cbn [resolve]. destruct (tokenize user_input) as [c a].
  destruct (attempts_same c a _ _ Hcl 0%nat (app w))
    as (H1 & H2 & H3 & H4 & H5).
  cbv zeta in *. rewrite <- Happ.
  set (l := attempts 0 (command_list w) (app w) c a) in *.
  set (l' := attempts 0 (command_list w') (app w) c a) in *.
  assert (Hal : same_dispatch (after_loop w l) (after_loop w' l')).
  { unfold same_dispatch, after_loop. simpl.
    repeat split; try assumption. congruence. }
  assert (Hhelp : forall (out out' : list string) (v v' : World Ctx),
            same_dispatch v v' ->
            same_result
              match resolve fuel (set_help_search true v) "help" with
              | Some w3 => Some (set_help_search false w3)
              | None => None
              end
              match resolve fuel (set_help_search true v') "help" with
              | Some w3 => Some (set_help_search false w3)
              | None => None
              end).
  { intros _ _ v v' (V1 & V2 & V3 & V4).
    assert (Hv : same_dispatch (set_help_search true v)
                   (set_help_search true v')) by (repeat split; assumption).
    pose proof (IH _ _ "help" Hv) as Hr. unfold same_result in *.
    destruct (resolve fuel (set_help_search true v) "help") as [x|];
      destruct (resolve fuel (set_help_search true v') "help") as [x'|];
      try exact Hr.
    destruct Hr as (R1 & R2 & R3 & R4). repeat split; assumption. }
  assert (Hwr : forall out out', same_dispatch (write out (after_loop w l))
                                   (write out' (after_loop w' l'))).
  { intros out out'. destruct Hal as (A1 & A2 & A3 & A4).
    repeat split; assumption. }
  rewrite <- H1. destruct (returned l); [exact Hal|].
  simpl. rewrite <- Hflag.
  destruct H5 as [|e e' es es' He H5]; destruct (_help_search w).
  - apply Hwr.
  - destruct (Py.truthy c).
    + apply (Hhelp [] []). apply Hwr.
    + apply (Hhelp [] []). exact Hal.
  - apply Hwr.
  - apply (Hhelp [] []). apply Hwr.
Qed.

(** The commands ['foo <x>'] and ['h|help'], fresh and used before, on
    ['foo']. *)
Lemma X11_dispatch_ignores_counters_witness :
  same_result
    (resolve 2
       (mkWorld [bind "foo <x>" accept; bind "h|help" accept] tt false [] [])
       "foo")
    (resolve 2
       (mkWorld [set_state (bind "foo <x>" accept) None 9000;
                 set_state (bind "h|help" accept) None 8000] tt false [] [])
       "foo").
Proof.
  apply (X11_dispatch_ignores_counters 2).
  repeat split; repeat constructor.
Defined.

(** ** The accounting of the user arguments *)

Lemma count_errors_app (kind : ParsingError -> bool)
    (l l' : list ParsingError) :
  count_errors kind (l ++ l')%list
  = (count_errors kind l + count_errors kind l')%nat.
Proof. unfold count_errors. rewrite filter_app, length_app. reflexivity. Qed.

Lemma pull_cases (user_args : list string) (f : Frame) :
  (pull user_args f = f
   /\ (user_arg f = None -> nth_error user_args (user_args_index f) = None))
  \/ (exists a, user_arg f = None
                /\ nth_error user_args (user_args_index f) = Some a
                /\ pull user_args f
                   = mkFrame (resolved_args f) (Some a)
                       (S (user_args_index f)) (self_first_exception f)
                       (self_badness f) (g_logged f) (g_matched f)).
Proof.
  unfold pull. destruct (user_arg f) as [t|] eqn:Hu.
  - left. split; [reflexivity | discriminate].
  - destruct (nth_error user_args (user_args_index f)) as [a|] eqn:Hn.
    + right. exists a. repeat split.
    + left. split; reflexivity.
Qed.

Lemma accounted_pull (user_args : list string) (f : Frame) :
  accounted f -> accounted (pull user_args f).
Proof.
  intro H. destruct (pull_cases user_args f) as [[-> _]|(a & Hu & _ & ->)];
    [exact H|].
  unfold accounted, buffered in *. rewrite Hu in H. simpl. lia.
Qed.

(** [match] can only fail on a token that is held, when the walk has not
    stopped on a missing mandatory argument. *)
Lemma match_fails_on_token (part : Part) (f : Frame) (e : ParsingError) :
  match user_arg f with
  | None => mandatory part
  | Some _ => false
  end = false ->
  match_ part (or_empty (user_arg f)) = inr e ->
  exists t, user_arg f = Some t.
Proof.
  intros Hb Hm. destruct (user_arg f) as [t|]; [eauto|].
  destruct (match_optional part (or_empty None) Hb) as [a Ha].
  congruence.
Qed.

(** [match] returns a value that carries information only for a token that
    is held, and the value is that token. *)
Lemma match_carries_token (part : Part) (f : Frame) (a : Argument) :
  match_ part (or_empty (user_arg f)) = inl a ->
  Py.truthy (value a) = true ->
  exists t, user_arg f = Some t /\ value a = t.
Proof.
  intros Hm Ht. destruct (user_arg f) as [t|].
  - exists t. split; [reflexivity|]. simpl in Hm.
    apply match_value in Hm. destruct Hm as [Hm| ->];
      [exact Hm | discriminate].
  - simpl in Hm. apply match_value in Hm. destruct Hm as [Hm| ->].
    + rewrite Hm in Ht. discriminate.
    + discriminate.
Qed.

Lemma walk_accounted (user_args : list string) (parts : list Part) :
  forall f, accounted f -> accounted (walk user_args parts f).
Proof.
  induction parts as [|part rest IH]; intros f H; [exact H|].
  rewrite walk_cons. cbv zeta.
  pose proof (accounted_pull user_args f H) as H1.
  set (f1 := pull user_args f) in *.
  destruct (match user_arg f1 with
            | None => mandatory part
            | Some _ => false
            end) eqn:Hb.
  - unfold accounted, buffered in *. simpl.
    rewrite count_errors_app. unfold count_errors in *. simpl. lia.
  - destruct (match_ part (or_empty (user_arg f1))) as [a|e] eqn:Hm.
    + apply IH. destruct (Py.truthy (value a)) eqn:Ht.
      * destruct (match_carries_token part f1 a Hm Ht) as (t & Hu & _).
        unfold accounted, buffered in *. rewrite Hu in H1. simpl. lia.
      * exact H1.
    + apply IH.
      destruct (match_fails_on_token part f1 e Hb Hm) as (t & Hu).
      rewrite (match_inr _ _ _ Hm).
      unfold accounted, buffered in *. rewrite Hu in H1. simpl.
      rewrite count_errors_app. unfold count_errors in *. simpl. lia.
Qed.

(** X12: every user argument is accounted for once.  After the walk, the
    arguments consumed are those matched and those reported as an invalid
    option; after the whole parse, the number of user arguments is the
    number matched, plus the number of invalid options reported, plus the
    number left over, of which the first is reported as redundant. *)
Theorem X12_arguments_accounted {Ctx : Type} (w : Wrapper Ctx) (a : Argument)
    (cmd : string) (user_args : list string) :
  let f := walk user_args (_args w) (start_frame w a cmd) in
  let errs := g_logged (parse w a cmd user_args) in
  consumed_tokens f
  = (g_matched f + count_errors is_Invalid (g_logged f))%nat
  /\ (consumed_tokens f <= length user_args)%nat
  /\ count_errors is_Invalid errs = count_errors is_Invalid (g_logged f)
  /\ count_errors is_Redundant errs
     = (if (consumed_tokens f <? length user_args)%nat then 1 else 0)%nat.
Proof.
  intros f errs.
  assert (Hacc : accounted f).
  { apply walk_accounted. unfold accounted, buffered, count_errors. simpl.
    reflexivity. }
  pose proof (walked_Inv w a cmd user_args) as HI. fold f in HI.
  assert (HL : errs
               = (g_logged f ++ match surplus user_args f with
                                | Some t => [_Redundant t]
                                | None => []
                                end)%list)
    by exact (check_redundant_logged _ _ f HI).
  pose proof (filter_Redundant_walk _ (inv_errors _ _ _ HI)) as HF.
  destruct HI as [_ _ Hl Hh _ _ _].
  unfold accounted in Hacc. unfold consumed_tokens.
  split; [lia|]. split; [lia|].
  assert (HcR : count_errors is_Redundant (g_logged f) = 0%nat)
    by (unfold count_errors; rewrite HF; reflexivity).
  rewrite HL, !count_errors_app, HcR.
  unfold surplus, consumed_tokens.
  destruct (nth_error user_args (user_args_index f - buffered f)) eqn:Hn.
  - assert (user_args_index f - buffered f < length user_args)%nat
      by (apply nth_error_Some; congruence).
    apply Nat.ltb_lt in H. rewrite H. unfold count_errors. simpl.
    split; [lia | reflexivity].
  - apply nth_error_None in Hn.
    assert (H : (user_args_index f - buffered f <? length user_args)%nat
                = false) by (apply Nat.ltb_ge; exact Hn).
    rewrite H. unfold count_errors. simpl. split; [lia | reflexivity].
Qed.

(** ** Missing and redundant arguments *)

Lemma walk_missing (user_args : list string) (parts : list Part) :
  forall f,
    count_errors is_Missing (g_logged f) = 0%nat ->
    let f' := walk user_args parts f in
    (count_errors is_Missing (g_logged f') <= 1)%nat
    /\ (count_errors is_Missing (g_logged f') = 1%nat ->
        exhausted user_args f'
        /\ exists l p, g_logged f' = (l ++ [_MissingMandatory p])%list
                       /\ In p parts /\ mandatory p = true).
Proof.
  induction parts as [|part rest IH]; intros f H; cbv zeta.
  - simpl. split; [lia|]. intro H1. congruence.
  - rewrite walk_cons. cbv zeta.
    assert (Hlog : g_logged (pull user_args f) = g_logged f).
    { destruct (pull_cases user_args f) as [[-> _]|(a & _ & _ & ->)];
        reflexivity. }
    assert (Hin : forall f0,
              (count_errors is_Missing (g_logged f0) <= 1)%nat
              /\ (count_errors is_Missing (g_logged f0) = 1%nat ->
                  exhausted user_args f0
                  /\ exists l p,
                       g_logged f0 = (l ++ [_MissingMandatory p])%list
                       /\ In p rest /\ mandatory p = true) ->
              (count_errors is_Missing (g_logged f0) <= 1)%nat
              /\ (count_errors is_Missing (g_logged f0) = 1%nat ->
                  exhausted user_args f0
                  /\ exists l p,
                       g_logged f0 = (l ++ [_MissingMandatory p])%list
                       /\ In p (part :: rest) /\ mandatory p = true)).
    { intros f0 [A B]. split; [exact A|]. intro H1.
      destruct (B H1) as (E & l & p & Hl & Hp & Hm).
      split; [exact E|]. exists l, p. repeat split; simpl; auto. }
    destruct (match user_arg (pull user_args f) with
              | None => mandatory part
              | Some _ => false
              end) eqn:Hb.
    + simpl. rewrite count_errors_app, Hlog, H. unfold count_errors.
      simpl. split; [lia|].
      intros _. destruct (user_arg (pull user_args f)) eqn:Hu;
        [discriminate|].
      split.
      * destruct (pull_cases user_args f) as [[Hp Hn]|(a & _ & _ & Hp)].
        -- rewrite Hp in *. split; simpl; [exact Hu | apply Hn; exact Hu].
        -- rewrite Hp in Hu. discriminate.
      * exists (g_logged f), part. repeat split; simpl; auto.
    + destruct (match_ part (or_empty (user_arg (pull user_args f))))
        as [a|e] eqn:Hm.
      * apply Hin, IH. destruct (Py.truthy (value a)); simpl; congruence.
      * apply Hin, IH. rewrite (match_inr _ _ _ Hm). simpl.
        rewrite count_errors_app, Hlog, H. reflexivity.
Qed.

(** X13: one attempt reports at most one missing mandatory argument and at
    most one redundant argument, and never both; and the error of a missing
    mandatory argument, when there is one, is the last one of the
    parse. *)
Theorem X13_missing_or_redundant {Ctx : Type} (w : Wrapper Ctx)
    (a : Argument) (cmd : string) (user_args : list string) :
  let errs := g_logged (parse w a cmd user_args) in
  (count_errors is_Missing errs + count_errors is_Redundant errs <= 1)%nat
  /\ (count_errors is_Missing errs = 1%nat ->
      exists l p, errs = (l ++ [_MissingMandatory p])%list
                  /\ In p (_args w) /\ mandatory p = true).
Proof.
  intro errs.
  pose proof (walked_Inv w a cmd user_args) as HI.
  set (f := walk user_args (_args w) (start_frame w a cmd)) in *.
  assert (HL : errs
               = (g_logged f ++ match surplus user_args f with
                                | Some t => [_Redundant t]
                                | None => []
                                end)%list)
    by exact (check_redundant_logged _ _ f HI).
  pose proof (filter_Redundant_walk _ (inv_errors _ _ _ HI)) as HF.
  destruct (walk_missing user_args (_args w) (start_frame w a cmd) eq_refl)
    as [Hle Hex]. fold f in Hle, Hex.
  assert (Hsur : count_errors is_Missing (g_logged f) = 1%nat ->
                 surplus user_args f = None).
  { intro H1. destruct (Hex H1) as [[Hu Hn] _].
    unfold surplus, consumed_tokens, buffered. rewrite Hu, Nat.sub_0_r.
    exact Hn. }
  assert (Hs1 : forall t, count_errors is_Missing [_Redundant t] = 0%nat)
    by reflexivity.
  assert (Hs2 : forall t, count_errors is_Redundant [_Redundant t] = 1%nat)
    by reflexivity.
  assert (Hs0 : forall kind, count_errors kind [] = 0%nat) by reflexivity.
  assert (Hm : count_errors is_Missing errs
               = count_errors is_Missing (g_logged f)).
  { rewrite HL, count_errors_app.
    destruct (surplus user_args f); rewrite ?Hs1, ?Hs0; lia. }
  assert (HcR : count_errors is_Redundant (g_logged f) = 0%nat)
    by (unfold count_errors; rewrite HF; reflexivity).
  split.
  - rewrite Hm. rewrite HL, count_errors_app, HcR.
    destruct (Nat.eq_dec (count_errors is_Missing (g_logged f)) 1)
      as [H1|H1].
    + rewrite (Hsur H1), Hs0. lia.
    + destruct (surplus user_args f); rewrite ?Hs2, ?Hs0; lia.
  - intro H1. rewrite Hm in H1. rewrite HL, (Hsur H1), app_nil_r.
    apply (Hex H1).
Qed.

(** The wrapper of ['set <k> <v>'] on ['set onlykey']. *)
Lemma X13_missing_or_redundant_witness :
  exists l p,
    g_logged (parse (bind "set <k> <v>" accept) (mkArgument "set" None)
                "set" ["onlykey"])
    = (l ++ [_MissingMandatory p])%list
    /\ In p (_args (bind "set <k> <v>" accept)) /\ mandatory p = true.
Proof.
  destruct (X13_missing_or_redundant (bind "set <k> <v>" accept)
              (mkArgument "set" None) "set" ["onlykey"]) as [_ H].
  apply H. reflexivity.
Defined.

(** ** The number of arguments of a command that succeeds *)

(** In a walk that logs nothing, over nonempty user arguments, the value
    of every mandatory part carries information. *)
Lemma walk_mandatory (user_args : list string) (b0 : Z) (parts : list Part) :
  Forall (fun t => Py.truthy t = true) user_args ->
  forall f,
    Inv user_args b0 f ->
    g_logged (walk user_args parts f) = [] ->
    exists vals,
      resolved_args (walk user_args parts f)
      = (resolved_args f ++ vals)%list
      /\ Forall2 (fun p v => mandatory p = true -> carries v = true)
           parts vals.
Proof.
  intro Hua.
  induction parts as [|part rest IH]; intros f HI H.
  - exists []. simpl. rewrite app_nil_r. split; constructor.
  - rewrite walk_cons in *. cbv zeta in *.
    pose proof (Inv_pull user_args b0 f HI) as H1.
    assert (Hres : resolved_args (pull user_args f) = resolved_args f).
    { destruct (pull_cases user_args f) as [[-> _]|(a & _ & _ & ->)];
        reflexivity. }
    set (f1 := pull user_args f) in *.
    destruct (match user_arg f1 with
              | None => mandatory part
              | Some _ => false
              end) eqn:Hb.
    { simpl in H. apply app_eq_nil in H. destruct H; discriminate. }
    destruct (match_ part (or_empty (user_arg f1))) as [a|e] eqn:Hm.
    2:{ apply walk_logged_nil in H. simpl in H. apply app_eq_nil in H.
        destruct H; discriminate. }
    assert (Hman : mandatory part = true -> carries a = true).
    { intro Hp. destruct (user_arg f1) as [t|] eqn:Hu;
        [|rewrite Hp in Hb; discriminate].
      assert (Ht : Py.truthy t = true).
      { rewrite Forall_forall in Hua. apply Hua.
        apply (nth_error_In _ _ (inv_buffer _ _ _ H1 t Hu)). }
      simpl in Hm. unfold match_ in Hm. unfold carries.
      destruct (in_dec string_dec t (options part));
        [inversion Hm; exact Ht|].
      destruct (Py.truthy (free_name part) && Py.truthy t);
        [inversion Hm; exact Ht|].
      rewrite Hp in Hm. discriminate. }
    assert (HI2 : Inv user_args b0
                    (if Py.truthy (value a)
                     then matched (append_resolved a f1)
                     else append_resolved a f1)).
    { destruct (Py.truthy (value a)) eqn:Ht.
      - destruct (match_carries_token part f1 a Hm Ht) as (t & Hu & _).
        apply Inv_matched; [simpl; congruence | apply Inv_append; exact H1].
      - apply Inv_append; exact H1. }
    destruct (IH _ HI2 H) as (vals & Hr & HF).
    exists (a :: vals). split.
    + rewrite Hr. destruct (Py.truthy (value a)); simpl;
        rewrite Hres, <- app_assoc; reflexivity.
    + constructor; assumption.
Qed.

Lemma mandatory_carry_count (parts : list Part) (vals : list Argument) :
  Forall2 (fun p v => mandatory p = true -> carries v = true) parts vals ->
  (length (filter mandatory parts) <= length (filter carries vals))%nat.
Proof.
  induction 1 as [|p v parts vals Hpv _ IH]; simpl; [lia|].
  destruct (mandatory p).
  - rewrite (Hpv eq_refl). simpl. lia.
  - destruct (carries v); simpl; lia.
Qed.

(** X14: a command reaches its handler only when the number of user
    arguments is at least the number of its mandatory argument parts and
    at most the number of its argument parts; the handler is then called
    with one value for every argument part, after the command's own value
    if that is passed. *)
Theorem X14_arity_of_success {Ctx : Type} (w : Wrapper Ctx) (ctx : Ctx)
    (cmd : string) (user_args : list string) (l : list Argument) :
  g_invoked (call w ctx cmd user_args) = Some l ->
  (length (filter mandatory (_args w)) <= length user_args)%nat
  /\ (length user_args <= length (_args w))%nat
  /\ Forall (fun t => t <> "") user_args
  /\ length l
     = ((if Py.truthy (free_name (_command w))
            || negb (mandatory (_command w)) then 1 else 0)
        + length (_args w))%nat.
Proof.
  unfold call.
  destruct (match_ (_command w) cmd) as [rc|e] eqn:Hm; [|discriminate].
  pose proof (parse_Rep w rc cmd user_args) as HR.
  destruct (run_handler_cases w ctx (parse w rc cmd user_args))
    as [[Hne ->]|[H0 Hrun]].
  { rewrite (proj1 (conclude_fields _ _ _ _)). discriminate. }
  pose proof (proj1 (Rep_none _ HR) H0) as Hnil.
  destruct (parse_success w rc cmd user_args Hnil)
    as (vals & Hr & HF & Htok & _ & _).
  intro Hinv.
  assert (Hl : l = resolved_args (parse w rc cmd user_args)).
  { destruct Hrun as [c [[_ Hrun]|[e [_ Hrun]]]]; rewrite Hrun in Hinv;
      rewrite (proj1 (conclude_fields _ _ _ _)) in Hinv; congruence. }
  assert (Hlen : length vals = length (_args w)).
  { symmetry. eapply Forall2_length. exact HF. }
  assert (Hua : Forall (fun t => Py.truthy t = true) user_args).
  { rewrite <- Htok. apply Forall_forall. intros t Ht.
    apply in_map_iff in Ht. destruct Ht as (v & <- & Hv).
    apply filter_In in Hv. apply Hv. }
  (* the same values, seen from the mandatory parts *)
  assert (HnilW : g_logged (walk user_args (_args w)
                              (start_frame w rc cmd)) = []).
  { unfold parse in Hnil.
    rewrite (check_redundant_logged _ _ _ (walked_Inv w rc cmd user_args))
      in Hnil.
    apply app_eq_nil in Hnil. apply Hnil. }
  destruct (walk_mandatory user_args _ (_args w) Hua _
              (start_Inv w rc cmd user_args) HnilW) as (vals' & Hr' & HF').
  assert (Heq : vals' = vals).
  { destruct (check_redundant_same user_args
                (walk user_args (_args w) (start_frame w rc cmd)))
      as (_ & _ & Hres).
    unfold parse in Hr. rewrite Hres, Hr' in Hr.
    apply app_inv_head in Hr. exact Hr. }
  subst vals'.
  pose proof (mandatory_carry_count _ _ HF') as Hcount.
  assert (Hfl : length (filter carries vals) = length user_args).
  { rewrite <- Htok, length_map. reflexivity. }
  pose proof (filter_length_le carries vals) as Hfle.
  repeat split.
  - lia.
  - lia.
  - eapply Forall_impl; [|exact Hua]. intros t Ht. apply truthy_spec, Ht.
  - rewrite Hl, Hr, length_app, Hlen. unfold seed.
    destruct (Py.truthy (free_name (_command w))
              || negb (mandatory (_command w))); reflexivity.
Qed.

(** The wrapper of ['<c> <k> [<v>]'] on ['put a']. *)
Lemma X14_arity_of_success_witness :
  (1 <= 1)%nat /\ (1 <= 2)%nat
  /\ length [mkArgument "put" (Some "c"); mkArgument "a" (Some "k");
             Argument_empty] = 3%nat.
Proof.
  destruct (X14_arity_of_success (bind "<c> <k> [<v>]" accept) tt "put" ["a"]
              [mkArgument "put" (Some "c"); mkArgument "a" (Some "k");
               Argument_empty] eq_refl) as (H1 & H2 & _ & H4).
  split; [exact H1|]. split; [exact H2 | exact H4].
Defined.

(** ** The diagnostics *)

Lemma insert_perm (e : ParsingError) (l : list ParsingError) :
  Permutation (insert_by_badness e l) (e :: l).
Proof.
  induction l as [|x l IH]; simpl; [reflexivity|].
  destruct (badness e <=? badness x); [reflexivity|].
  rewrite IH. apply perm_swap.
Qed.

Lemma sort_perm (l : list ParsingError) : Permutation (sort_by_badness l) l.
Proof.
  induction l as [|e l IH]; simpl; [reflexivity|].
  rewrite insert_perm, IH. reflexivity.
Qed.

Lemma insert_sorted (e : ParsingError) (l : list ParsingError) :
  StronglySorted not_worse l -> StronglySorted not_worse (insert_by_badness e l).
Proof.
  induction 1 as [|x l Hs IH Hx]; simpl.
  - repeat constructor.
  - destruct (badness e <=? badness x) eqn:Hle.
    + apply Z.leb_le in Hle. constructor; [constructor; assumption|].
      constructor; [exact Hle|].
      eapply Forall_impl; [|exact Hx]. unfold not_worse. intros; lia.
    + apply Z.leb_gt in Hle. constructor; [exact IH|].
      apply Forall_forall. intros y Hy.
      apply (Permutation_in _ (insert_perm e l)) in Hy.
      destruct Hy as [<-|Hy]; [unfold not_worse; lia|].
      rewrite Forall_forall in Hx. apply Hx, Hy.
Qed.

Lemma sort_sorted (l : list ParsingError) :
  StronglySorted not_worse (sort_by_badness l).
Proof.
  induction l as [|e l IH]; simpl; [constructor | apply insert_sorted, IH].
Qed.

Lemma insert_stable (b : Z) (e : ParsingError) (l : list ParsingError) :
  of_badness b (insert_by_badness e l) = of_badness b (e :: l).
Proof.
  unfold of_badness. induction l as [|x l IH]; [reflexivity|].
  simpl. destruct (badness e <=? badness x) eqn:Hle; [reflexivity|].
  apply Z.leb_gt in Hle. simpl. rewrite IH. simpl.
  destruct (badness e =? b) eqn:He; [|reflexivity].
  apply Z.eqb_eq in He.
  assert (Hx : (badness x =? b) = false) by (apply Z.eqb_neq; lia).
  rewrite Hx. reflexivity.
Qed.

Lemma sort_stable (b : Z) (l : list ParsingError) :
  of_badness b (sort_by_badness l) = of_badness b l.
Proof.
  induction l as [|e l IH]; [reflexivity|].
  simpl. rewrite insert_stable. unfold of_badness in *. simpl.
  rewrite IH. reflexivity.
Qed.

Lemma first_of_each_spec (l : list ParsingError) :
  forall seen,
    NoDup (map message (first_of_each_message seen l))
    /\ (forall m, In m (map message (first_of_each_message seen l))
                  <-> In m (map message l) /\ ~ In m seen)
    /\ (forall r, In r (first_of_each_message seen l) -> In r l)
    /\ (StronglySorted not_worse l ->
        StronglySorted not_worse (first_of_each_message seen l)
        /\ forall r e, In r (first_of_each_message seen l) -> In e l ->
                       message e = message r -> badness r <= badness e).
Proof.
  induction l as [|x l IH]; intro seen; simpl.
  - split; [constructor|]. split; [intro m; tauto|]. split; [tauto|].
    intros _. split; [constructor | intros r e []].
  - destruct (in_dec string_dec (message x) seen) as [i|n].
    + destruct (IH seen) as (I1 & I2 & I3 & I4).
      split; [exact I1|]. split; [|split].
      * intro m. rewrite I2. split; [tauto|].
        intros [[<-|H] Hn]; [contradiction | tauto].
      * intros r Hr. right. apply I3, Hr.
      * intro Hs. inversion Hs as [|? ? Hs' Hx]; subst.
        destruct (I4 Hs') as [J1 J2]. split; [exact J1|].
        intros r e Hr [<-|He] Hm; [|apply (J2 r e Hr He Hm)].
        exfalso. assert (Hin : In (message r)
                                 (map message (first_of_each_message seen l)))
          by (apply in_map; exact Hr).
        apply I2 in Hin. destruct Hin as [_ Hn]. apply Hn. congruence.
    + destruct (IH (message x :: seen)) as (I1 & I2 & I3 & I4).
      simpl. split; [|split; [|split]].
      * constructor; [|exact I1]. intro Hin. apply I2 in Hin.
        destruct Hin as [_ Hn]. apply Hn. left. reflexivity.
      * intro m. rewrite I2. simpl. split.
        -- intros [<-|[H Hn]]; [tauto|]. split; [tauto|].
           intro Hs. apply Hn. right. exact Hs.
        -- intros [[<-|H] Hn]; [tauto|].
           destruct (string_dec (message x) m) as [<-|Hd]; [tauto|].
           right. split; [exact H|]. intros [E|E]; [contradiction | tauto].
      * intros r [<-|Hr]; [tauto | right; apply I3, Hr].
      * intro Hs. inversion Hs as [|? ? Hs' Hx]; subst.
        destruct (I4 Hs') as [J1 J2]. split.
        -- constructor; [exact J1|]. apply Forall_forall. intros r Hr.
           rewrite Forall_forall in Hx. apply Hx, I3, Hr.
        -- intros r e [<-|Hr] [<-|He] Hm.
           ++ lia.
           ++ rewrite Forall_forall in Hx. apply (Hx e He).
           ++ exfalso.
              assert (Hin : In (message r)
                              (map message
                                 (first_of_each_message (message x :: seen) l)))
                by (apply in_map; exact Hr).
              apply I2 in Hin. destruct Hin as [_ Hn']. apply Hn'.
              left. exact Hm.
           ++ apply (J2 r e Hr He Hm).
Qed.

(** X15: the diagnostics printed: the messages of the errors of
    [to_print], joined, after four blanks when there are several.  Every
    message of the errors caught is
    printed once; the errors printed are in ascending order of badness;
    the error printed for a message is one caught, and none caught with
    the same message has a lower badness.  The sort keeps errors of equal
    badness in the order in which they were caught. *)
Theorem X15_diagnostics_ranked (l : list ParsingError) :
  _print_exceptions l
  = (let text := Py.join (LF ++ "or  ") (map message (to_print l))
                   ++ "." ++ LF ++ LF in
     if (1 <? length (to_print l))%nat then ["    "; text] else [text])
  /\ NoDup (map message (to_print l))
  /\ (forall m, In m (map message (to_print l)) <-> In m (map message l))
  /\ StronglySorted not_worse (to_print l)
  /\ (forall r, In r (to_print l) -> In r l)
  /\ (forall r e, In r (to_print l) -> In e l -> message e = message r ->
                  badness r <= badness e)
  /\ Permutation (sort_by_badness l) l
  /\ (forall b, of_badness b (sort_by_badness l) = of_badness b l).
Proof.
  unfold to_print.
  destruct (first_of_each_spec (sort_by_badness l) []) as (H1 & H2 & H3 & H4).
  destruct (H4 (sort_sorted l)) as [H5 H6].
  pose proof (sort_perm l) as HP.
  split; [reflexivity|].
  split; [exact H1|]. split; [|split; [exact H5|split; [|split; [|split]]]].
  - intro m. rewrite H2. split.
    + intros [H _]. apply in_map_iff in H. destruct H as (e & <- & He).
      apply in_map. apply (Permutation_in _ HP He).
    + intro H. split; [|tauto]. apply in_map_iff in H.
      destruct H as (e & <- & He). apply in_map.
      apply (Permutation_in _ (Permutation_sym HP) He).
  - intros r Hr. apply (Permutation_in _ HP), H3, Hr.
  - intros r e Hr He Hm. apply (H6 r e Hr); [|exact Hm].
    apply (Permutation_in _ (Permutation_sym HP) He).
  - exact HP.
  - intro b. apply sort_stable.
Qed.

(** ** The dispatcher: more properties *)

Lemma Forall2_same_command_refl {Ctx : Type} (cl : list (Wrapper Ctx)) :
  Forall2 same_command cl cl.
Proof. induction cl; constructor; [repeat split | assumption]. Qed.

Lemma Forall2_same_command_trans {Ctx : Type} (a : list (Wrapper Ctx)) :
  forall b c,
    Forall2 same_command a b -> Forall2 same_command b c ->
    Forall2 same_command a c.
Proof.
  induction a as [|x a IH]; intros b c Hab Hbc.
  - inversion Hab; subst. inversion Hbc; subst. constructor.
  - inversion Hab; subst. inversion Hbc; subst. constructor.
    + eapply same_command_trans; eassumption.
    + eapply IH; eassumption.
Qed.

Lemma attempts_wrappers {Ctx : Type} (cmd : string) (ua : list string)
    (cl : list (Wrapper Ctx)) :
  forall (pos : nat) (ctx : Ctx),
    Forall2 same_command cl (wrappers (attempts pos cl ctx cmd ua)).
Proof.
  induction cl as [|x cl IH]; intros pos ctx; simpl; [constructor|].
  pose proof (call_same_command x ctx cmd ua) as Hx.
  destruct (outcome (call x ctx cmd ua)); simpl; constructor;
    try exact Hx; try apply IH.
  apply Forall2_same_command_refl.
Qed.

(** X16: [resolve] keeps the command list: the same commands, in the same
    order, with the same handlers; only error slots and badness counters
    change.  It only adds to what was written and to the handlers
    called. *)
Theorem X16_registry_kept {Ctx : Type} (fuel : nat) (w w' : World Ctx)
    (user_input : string) :
  resolve fuel w user_input = Some w' ->
  Forall2 same_command (command_list w) (command_list w')
  /\ length (command_list w') = length (command_list w)
  /\ (exists out, stdout w' = (stdout w ++ out)%list)
  /\ (exists calls, g_handlers w' = (g_handlers w ++ calls)%list).
Proof.
  assert (Hmain : forall fuel (w w' : World Ctx) user_input,
            resolve fuel w user_input = Some w' ->
            Forall2 same_command (command_list w) (command_list w')
            /\ (exists out, stdout w' = (stdout w ++ out)%list)
            /\ (exists calls, g_handlers w' = (g_handlers w ++ calls)%list)).
  { clear. induction fuel as [|fuel IH]; intros w w' user_input H;
      [discriminate|].
    cbn [resolve] in H. destruct (tokenize user_input) as [c a].
    cbv zeta in H.
    set (l := attempts 0 (command_list w) (app w) c a) in *.
    assert (Hal : Forall2 same_command (command_list w)
                    (command_list (after_loop w l)))
      by apply attempts_wrappers.
    assert (Hhelp : forall out v,
              v = write out (after_loop w l) ->
              match resolve fuel (set_help_search true v) "help" with
              | Some w3 => Some (set_help_search false w3)
              | None => None
              end = Some w' ->
              Forall2 same_command (command_list w) (command_list w')
              /\ (exists out, stdout w' = (stdout w ++ out)%list)
              /\ (exists calls,
                     g_handlers w' = (g_handlers w ++ calls)%list)).
    { intros out v -> Hv.
      destruct (resolve fuel
                  (set_help_search true (write out (after_loop w l))) "help")
        as [w3|] eqn:Hr; [|discriminate].
      inversion Hv; subst. destruct (IH _ _ _ Hr) as (I1 & [o Ho] & [k Hk]).
      simpl in *. split; [|split].
      - eapply Forall2_same_command_trans; [exact Hal | exact I1].
      - exists (out ++ o)%list. rewrite Ho, app_assoc. reflexivity.
      - exists (g_calls l ++ k)%list. rewrite Hk, app_assoc. reflexivity. }
    assert (Hwrite : forall out,
              Some (write out (after_loop w l)) = Some w' ->
              Forall2 same_command (command_list w) (command_list w')
              /\ (exists out, stdout w' = (stdout w ++ out)%list)
              /\ (exists calls,
                     g_handlers w' = (g_handlers w ++ calls)%list)).
    { intros out Hv. inversion Hv; subst. simpl.
      split; [exact Hal|]. split; eexists; reflexivity. }
    destruct (returned l).
    - apply (Hwrite []). rewrite <- H. f_equal. unfold write. simpl.
      rewrite app_nil_r. reflexivity.
    - destruct (logged_exceptions l);
        destruct (_help_search (after_loop w l)).
      + apply (Hwrite _ H).
      + destruct (Py.truthy c).
        * apply (Hhelp _ _ eq_refl H).
        * apply (Hhelp [] (write [] (after_loop w l)) eq_refl).
          rewrite <- H. unfold write, set_help_search. simpl.
          rewrite app_nil_r. reflexivity.
      + apply (Hwrite _ H).
      + apply (Hhelp _ _ eq_refl H). }
  intro H. destruct (Hmain fuel w w' user_input H) as (H1 & H2 & H3).
  repeat split; try assumption.
  symmetry. eapply Forall2_length. exact H1.
Qed.

(** The commands ['foo <x>'] and ['h|help'] on ['foo']. *)
Lemma X16_registry_kept_witness :
  exists w',
    resolve 2
      (mkWorld [bind "foo <x>" accept; bind "h|help" accept] tt false [] [])
      "foo" = Some w'
    /\ length (command_list w') = 2%nat.
Proof.
  eexists. split; [reflexivity|].
  apply (X16_registry_kept 2
           (mkWorld [bind "foo <x>" accept; bind "h|help" accept] tt false
              [] [])
           _ "foo" eq_refl).
Defined.

Lemma attempts_all_rejected {Ctx : Type} (cmd : string) (ua : list string)
    (cl : list (Wrapper Ctx)) :
  Forall (rejects cmd) cl ->
  forall (pos : nat) (ctx : Ctx),
    attempts pos cl ctx cmd ua = mkLoop false (map rejected cl) ctx [] [].
Proof.
  induction 1 as [|x cl Hx _ IH]; intros pos ctx; simpl; [reflexivity|].
  rewrite (false_no_effect x ctx cmd ua _ Hx). simpl.
  rewrite IH. reflexivity.
Qed.

Lemma rejects_rejected {Ctx : Type} (token : string)
    (cl : list (Wrapper Ctx)) :
  Forall (rejects token) cl -> Forall (rejects token) (map rejected cl).
Proof.
  induction 1; simpl; constructor; assumption.
Qed.

(** X17: a command that no command part accepts.  In the state NORMAL,
    when the command token is not empty and every command part rejects it,
    [resolve] calls no handler for it and writes ['Unknown command'] with
    the token, and an empty line.  Then, when every command part rejects
    ['help'] too, it writes ['No additional help found.'] and leaves the
    application as it was; and when the first wrapper that accepts ['help']
    has no argument parts and its handler raises nothing, that handler is
    called, and nothing more is written. *)
Theorem X17_unknown_command {Ctx : Type} (w : World Ctx)
    (user_input : string) (fuel : nat) :
  normal w ->
  fst (tokenize user_input) <> "" ->
  Forall (rejects (fst (tokenize user_input))) (command_list w) ->
  let unknown :=
    [("Unknown command " ++ fst (tokenize user_input) ++ "." ++ LF)%string;
     LF] in
  (Forall (rejects "help") (command_list w) ->
   exists w',
     resolve (S (S fuel)) w user_input = Some w'
     /\ stdout w'
        = (stdout w ++ unknown
             ++ [("No additional help found." ++ LF)%string])%list
     /\ g_handlers w' = g_handlers w
     /\ app w' = app w
     /\ command_list w' = map rejected (command_list w)
     /\ normal w')
  /\ (forall pre wh post a,
         command_list w = (pre ++ wh :: post)%list ->
         Forall (rejects "help") pre ->
         match_ (_command wh) "help" = inl a ->
         _args wh = [] ->
         snd (_handler wh (app w) (seed (_command wh) a)) = None ->
         exists w',
           resolve (S (S fuel)) w user_input = Some w'
           /\ stdout w' = (stdout w ++ unknown)%list
           /\ g_handlers w'
              = (g_handlers w ++ [(length pre, seed (_command wh) a)])%list
           /\ app w' = fst (_handler wh (app w) (seed (_command wh) a))
           /\ normal w').
Proof.
  intros Hn Hc Hrej unknown. subst unknown.
  unfold normal in Hn.
  destruct (tokenize user_input) as [c ua] eqn:Ht. cbn [fst] in *.
  assert (Hct : Py.truthy c = true) by (apply truthy_spec; exact Hc).
  pose proof (attempts_all_rejected c ua _ Hrej 0%nat (app w)) as Hl.
  assert (Hfirst : forall fuel',
            resolve (S fuel') w user_input
            = match resolve fuel'
                      (set_help_search true
                         (write [("Unknown command " ++ c ++ "." ++ LF)%string;
                                 LF]
                            (mkWorld (map rejected (command_list w)) (app w)
                               (_help_search w) (stdout w)
                               (g_handlers w ++ [])%list)))
                      "help" with
              | Some w3 => Some (set_help_search false w3)
              | None => None
              end).
  { intro fuel'. cbn [resolve]. rewrite Ht. cbv zeta. rewrite Hl.
    unfold after_loop. simpl. rewrite Hn, Hct. reflexivity. }
  split.
  - intro Hhelp. rewrite Hfirst. cbn [resolve].
    change (tokenize "help") with ("help", @nil string). cbv zeta.
    cbn [command_list set_help_search write app].
    rewrite (attempts_all_rejected "help" [] _
               (rejects_rejected "help" _ Hhelp) 0%nat (app w)).
    eexists. split; [reflexivity|]. simpl.
    rewrite !app_nil_r, <- app_assoc, map_map. repeat split.
  - intros pre wh post a Hcl Hpre Hm Hargs Hh.
    rewrite Hfirst. cbn [resolve].
    change (tokenize "help") with ("help", @nil string). cbv zeta.
    cbn [command_list set_help_search write app].
    rewrite Hcl, map_app. cbn [map].
    pose proof (attempts_all_rejected "help" [] _
                  (rejects_rejected "help" _ Hpre) 0%nat (app w)) as Hp.
    assert (Hf : returned (attempts 0 (map rejected pre) (app w) "help" [])
                 = false) by (rewrite Hp; reflexivity).
    rewrite (attempts_app "help" [] (map rejected pre)
               (rejected wh :: map rejected post) 0 (app w) Hf).
    cbv zeta. rewrite Hp. cbn [loop_ctx wrappers logged_exceptions g_calls].
    rewrite length_map. simpl.
    assert (Hcall : call (rejected wh) (app w) "help" []
                    = mkCallResult ReturnTrue
                        (set_state wh None
                           (if in_dec string_dec "help" (options (_command wh))
                            then _badness wh - 3 else _badness wh))
                        (fst (_handler wh (app w) (seed (_command wh) a)))
                        [] 0%nat (Some (seed (_command wh) a))).
    { unfold call, rejected. simpl. rewrite Hm.
      unfold parse, run_handler, start_frame. simpl. rewrite Hargs. simpl.
      fold (seed (_command wh) a).
      destruct (_handler wh (app w) (seed (_command wh) a)) as [c' [e|]];
        simpl in *; [discriminate | reflexivity]. }
    rewrite Hcall. simpl. eexists. split; [reflexivity|].
    simpl. rewrite app_nil_r. repeat split.
Qed.

(** The commands ['foo <x>'] and ['bar <y>'], and then ['h|help'], on
    ['baz']. *)
Lemma X17_unknown_command_witness :
  (exists w',
     resolve 2
       (mkWorld [bind "foo <x>" accept; bind "bar <y>" accept] tt false [] [])
       "baz" = Some w'
     /\ stdout w'
        = [("Unknown command baz." ++ LF)%string; LF;
           ("No additional help found." ++ LF)%string])
  /\ (exists w',
        resolve 2
          (mkWorld [bind "foo <x>" accept; bind "h|help" accept] tt false
             [] [])
          "baz" = Some w'
        /\ g_handlers w' = [(1%nat, [])]).
Proof.
  split.
  - destruct (X17_unknown_command
                (mkWorld [bind "foo <x>" accept; bind "bar <y>" accept] tt
                   false [] [])
                "baz" 0) as [H _].
    + reflexivity.
    + discriminate.
    + repeat constructor.
    + destruct H as (w' & H1 & H2 & _); [repeat constructor|].
      exists w'. split; [exact H1 | exact H2].
  - destruct (X17_unknown_command
                (mkWorld [bind "foo <x>" accept; bind "h|help" accept] tt
                   false [] [])
                "baz" 0) as [_ H].
    + reflexivity.
    + discriminate.
    + repeat constructor.
    + destruct (H [bind "foo <x>" accept] (bind "h|help" accept) []
                  (mkArgument "help" None))
        as (w' & H1 & _ & H3 & _).
      * reflexivity.
      * repeat constructor.
      * reflexivity.
      * reflexivity.
      * reflexivity.
      * exists w'. split; [exact H1 | exact H3].
Defined.

(** ** The command list of an application *)








(** ** The help *)

Lemma len_app (s t : string) : len (s ++ t) = len s + len t.
Proof.
  unfold len. induction s as [|c s IH]; simpl String.length; [lia|].
  rewrite !Nat2Z.inj_succ. lia.
Qed.

Lemma len_spaces (k : Z) : 0 <= k -> len (spaces k) = k.
Proof.
  intro H. unfold spaces, len.
  assert (Hb : forall n, String.length (blanks n) = n).
  { induction n as [|n IH]; simpl; [reflexivity | rewrite IH; reflexivity]. }
  rewrite Hb. lia.
Qed.

Lemma join_snoc (g : list string) (w : string) :
  g <> [] -> Py.join " " (g ++ [w])%list = Py.join " " g ++ " " ++ w.
Proof.
  unfold Py.join. induction g as [|x g IH]; intro H; [contradiction|].
  destruct g as [|y g].
  - reflexivity.
  - change (String.concat " " ((x :: y :: g) ++ [w]))
      with (x ++ " " ++ String.concat " " ((y :: g) ++ [w])).
    rewrite IH by discriminate.
    change (String.concat " " (x :: y :: g))
      with (x ++ " " ++ String.concat " " (y :: g)).
    rewrite !str_app_assoc. reflexivity.
Qed.

(** The loop over the words, once the first word is placed: the words are
    laid out in groups, one group for a line; the first group goes on with
    the line that is being written, every other line starts with [tab]
    blanks; a line of more than one word is not too wide. *)
Lemma place_words (tab indent : Z) (ws : list string) :
  forall (init : list string) (pre : string) (g : list string),
    g <> [] ->
    narrow indent pre g ->
    exists g1 gs,
      ws = (g1 ++ concat gs)%list
      /\ Forall (fun x => x <> []) gs
      /\ (let '(init', last', _) :=
            fold_left (place_word tab indent) ws
              (init, help_line pre g, true) in
          (init' ++ [last'])%list)
         = (init ++ help_line pre (g ++ g1)
              :: map (help_line (spaces tab)) gs)%list
      /\ narrow indent pre (g ++ g1)
      /\ Forall (narrow indent (spaces tab)) gs.
Proof.
  induction ws as [|w ws IH]; intros init pre g Hg Hn.
  - exists [], []. simpl. rewrite app_nil_r.
    repeat split; auto.
  - cbn [fold_left]. unfold place_word at 2.
    rewrite andb_true_r.
    destruct (len (help_line pre g) + len w >=? HELP_WIDTH - indent)
      eqn:Hc.
    + assert (Hs : spaces tab ++ w = help_line (spaces tab) [w])
        by reflexivity.
      rewrite Hs.
      destruct (IH (init ++ [help_line pre g])%list (spaces tab) [w])
        as (g1 & gs & Hw & Hne & Hl & Hn1 & Hns).
      { discriminate. }
      { left. simpl. lia. }
      exists [], (([w] ++ g1)%list :: gs). rewrite app_nil_r.
      split; [simpl; rewrite Hw; reflexivity|].
      split; [constructor; [discriminate | exact Hne]|].
      split; [rewrite Hl, <- app_assoc; reflexivity|].
      split; [exact Hn | constructor; assumption].
    + assert (Hs : help_line pre g ++ " " ++ w = help_line pre (g ++ [w]))
        by (unfold help_line; rewrite (join_snoc g w Hg), str_app_assoc;
            reflexivity).
      rewrite Hs.
      destruct (IH init pre (g ++ [w])%list)
        as (g1 & gs & Hw & Hne & Hl & Hn1 & Hns).
      { destruct g; discriminate. }
      { right. rewrite <- Hs, !len_app.
        rewrite Z.geb_leb in Hc. apply Z.leb_gt in Hc.
        change (len " ") with 1. lia. }
      exists (w :: g1), gs. rewrite <- app_assoc in *. simpl in *.
      split; [rewrite Hw; reflexivity|].
      repeat split; assumption.
Qed.

(** X19: the layout of a help entry with a nonempty syntax and a
    tabulator position.  The syntax is followed on its line by the
    description when the position leaves two columns after it, else it
    stands on a line of its own.  The words of the description are laid
    out in their order, separated by single blanks; with a position of at
    least 1 they start at that column on every line; a line that holds
    more than one word is at most [HELP_WIDTH - indent] wide.  The entry
    itself is not changed. *)
Theorem X19_help_entry_layout (self : Entry) (indent t : Z) :
  Py.truthy (e_syntax self) = true ->
  e_tab self = Some t ->
  let fits := t >=? len (e_syntax self) + 2 in
  let head := if fits then [] else [e_syntax self] in
  let pre := if fits then e_syntax self ++ spaces (t - len (e_syntax self) - 1)
             else spaces (t - 1) in
  fst (_str_lines self indent) = self
  /\ (Py.split (e_description self) = [] ->
      snd (_str_lines self indent) = (head ++ [pre])%list)
  /\ (forall w ws,
         Py.split (e_description self) = w :: ws ->
         exists g gs,
           ws = (g ++ concat gs)%list
           /\ Forall (fun x => x <> []) gs
           /\ snd (_str_lines self indent)
              = (head ++ help_line (pre ++ " ") (w :: g)
                   :: map (help_line (spaces t)) gs)%list
           /\ narrow indent (pre ++ " ") (w :: g)
           /\ Forall (narrow indent (spaces t)) gs)
  /\ (1 <= t -> len (pre ++ " ") = t /\ len (spaces t) = t).
Proof.
  intros Hs Ht fits head pre.
  assert (Hfirst : first_lines self = (self, head, pre)).
  { unfold first_lines. rewrite Hs, Ht. simpl. subst fits head pre.
    destruct self as [sy de ta]. simpl in *. subst ta.
    destruct (t >=? len sy + 2); reflexivity. }
  unfold _str_lines. rewrite Hfirst. unfold tab_of. rewrite Ht.
  split; [|split; [|split]].
  - destruct (fold_left (place_word t indent) (Py.split (e_description self))
                (head, pre, false)) as [[i l] b]. reflexivity.
  - intros ->. reflexivity.
  - intros w ws ->. cbn [fold_left]. unfold place_word at 2.
    rewrite andb_false_r.
    assert (Hl : pre ++ " " ++ w = help_line (pre ++ " ") [w])
      by (unfold help_line; simpl; rewrite str_app_assoc; reflexivity).
    rewrite Hl.
    destruct (place_words t indent ws head (pre ++ " ") [w])
      as (g & gs & Hw & Hne & Hlines & Hn1 & Hns).
    { discriminate. }
    { left. simpl. lia. }
    exists g, gs. simpl in Hlines, Hn1.
    destruct (fold_left (place_word t indent) ws
                (head, help_line (pre ++ " ") [w], true)) as [[i l] b].
    repeat split; assumption.
  - intro H1. split; [|apply len_spaces; lia].
    subst pre fits. rewrite len_app. change (len " ") with 1.
    destruct (t >=? len (e_syntax self) + 2) eqn:Hf.
    + rewrite Z.geb_leb in Hf. apply Z.leb_le in Hf.
      rewrite len_app, len_spaces by lia. lia.
    + rewrite len_spaces by lia. lia.
Qed.

(** The entry ['set <k> <v>'], with the tabulator position 15. *)
Lemma X19_help_entry_layout_witness :
  snd (_str_lines (mkEntry "set <k> <v>" "store a value" (Some 15)) 0)
  = ["set <k> <v>    store a value"].
Proof.
  destruct (X19_help_entry_layout
              (mkEntry "set <k> <v>" "store a value" (Some 15)) 0 15
              eq_refl eq_refl) as (_ & _ & H & _).
  destruct (H "store" ["a"; "value"] eq_refl) as (g & gs & _ & _ & Hl & _).
  reflexivity.
Defined.

Lemma largest_tab_from (values : list Entry) :
  forall t0,
    0 <= t0 <= MAX_HELP_INDENT ->
    let t := fold_left
               (fun t e =>
                  if len (e_syntax e) + 4 <=? MAX_HELP_INDENT
                  then Z.max t (len (e_syntax e) + 4) else t)
               values t0 in
    t0 <= t <= MAX_HELP_INDENT
    /\ Forall (fun e => len (e_syntax e) + 4 <= MAX_HELP_INDENT ->
                        len (e_syntax e) + 4 <= t) values
    /\ (t = t0 \/ exists e, In e values /\ t = len (e_syntax e) + 4).
Proof.
  induction values as [|e values IH]; intros t0 H0; cbv zeta; simpl.
  - split; [lia|]. split; [constructor | left; reflexivity].
  - destruct (len (e_syntax e) + 4 <=? MAX_HELP_INDENT) eqn:Hf.
    + apply Z.leb_le in Hf.
      destruct (IH (Z.max t0 (len (e_syntax e) + 4))) as (I1 & I2 & I3);
        [lia|].
      cbv zeta in *. split; [lia|]. split.
      * constructor; [intros _; lia | exact I2].
      * destruct I3 as [I3|(x & Hx & I3)].
        -- destruct (Z.max_spec t0 (len (e_syntax e) + 4)) as [[_ M]|[_ M]].
           ++ right. exists e. split; [left; reflexivity|].
              rewrite I3. exact M.
           ++ left. rewrite I3. exact M.
        -- right. exists x. split; [right; exact Hx | exact I3].
    + apply Z.leb_gt in Hf.
      destruct (IH t0 H0) as (I1 & I2 & I3). cbv zeta in *.
      split; [exact I1|]. split.
      * constructor; [intro; lia | exact I2].
      * destruct I3 as [I3|(x & Hx & I3)]; [left; exact I3|].
        right. exists x. split; [right; exact Hx | exact I3].
Qed.

(** X20: the tabulator position of a command list lies between 0 and
    [MAX_HELP_INDENT]; it is at least four columns behind the end of every
    syntax of at most [MAX_HELP_INDENT - 4] characters, and exactly four
    behind one of them when there is one, else it is 0.  Every entry of
    the list gets this position, and nothing else of it changes; so the
    description of every entry with such a syntax starts on the line of
    the syntax. *)
Theorem X20_command_list_tab (values : list Entry) :
  let t := largest_tab values in
  0 <= t <= MAX_HELP_INDENT
  /\ Forall (fun e => len (e_syntax e) + 4 <= MAX_HELP_INDENT ->
                      len (e_syntax e) + 4 <= t) values
  /\ (t = 0 \/ exists e, In e values /\ t = len (e_syntax e) + 4)
  /\ (t = 0 <-> Forall (fun e => MAX_HELP_INDENT < len (e_syntax e) + 4)
                  values)
  /\ map e_syntax (CommandList_new values) = map e_syntax values
  /\ map e_description (CommandList_new values) = map e_description values
  /\ Forall (fun e => e_tab e = Some t) (CommandList_new values)
  /\ Forall (fun e => len (e_syntax e) + 4 <= MAX_HELP_INDENT ->
                      (t >=? len (e_syntax e) + 2) = true)
       (CommandList_new values).
Proof.
  intro t. subst t.
  destruct (largest_tab_from values 0) as (H1 & H2 & H3);
    [unfold MAX_HELP_INDENT; lia|].
  cbv zeta in *. fold (largest_tab values) in *.
  assert (Hlen : forall s, 0 <= len s) by (intro s; unfold len; lia).
  split; [exact H1|]. split; [exact H2|]. split; [exact H3|].
  split; [|split; [|split; [|split]]].
  - split.
    + intro H0. eapply Forall_impl; [|exact H2]. simpl. intros e He.
      destruct (Z_lt_le_dec MAX_HELP_INDENT (len (e_syntax e) + 4))
        as [Hl|Hl]; [exact Hl|].
      specialize (He Hl). specialize (Hlen (e_syntax e)). lia.
    + intro HF. destruct H3 as [H3|(e & He & H3)]; [exact H3|].
      rewrite Forall_forall in HF. specialize (HF e He). lia.
  - unfold CommandList_new. rewrite map_map. reflexivity.
  - unfold CommandList_new. rewrite map_map. reflexivity.
  - unfold CommandList_new. apply Forall_forall. intros e He.
    apply in_map_iff in He. destruct He as (x & <- & _). reflexivity.
  - unfold CommandList_new. apply Forall_forall. intros e He.
    apply in_map_iff in He. destruct He as (x & <- & Hx). simpl.
    intro Hf. rewrite Forall_forall in H2. specialize (H2 x Hx Hf).
    rewrite Z.geb_leb. apply Z.leb_le. lia.
Qed.

(** X21: what a rendering does to the entry.  An entry with a nonempty
    syntax keeps its texts, and its tabulator position when it has one
    (else it gets the position four columns behind its syntax); rendering
    it again gives the same lines.  The entry of the empty syntax gets the
    position 0, and its description is put between ['no command is
    given, '] and a full stop at every rendering, so that the second
    rendering does so again with the description of the first. *)
Theorem X21_rendering_and_the_entry (self : Entry) (i j : Z) :
  (Py.truthy (e_syntax self) = true ->
   fst (_str_lines self i)
   = mkEntry (e_syntax self) (e_description self)
       (Some (match e_tab self with
              | Some t => t
              | None => len (e_syntax self) + 4
              end))
   /\ _str_lines (fst (_str_lines self i)) j
      = (fst (_str_lines self i), snd (_str_lines self j)))
  /\ (e_syntax self = "" ->
      fst (_str_lines self i)
      = mkEntry "" ("no command is given, " ++ e_description self ++ ".")
          (Some 0)
      /\ e_description (fst (_str_lines (fst (_str_lines self i)) j))
         = "no command is given, "
             ++ ("no command is given, " ++ e_description self ++ ".")
             ++ ".").
Proof.
  assert (Hfst : forall e k, fst (_str_lines e k) = fst (fst (first_lines e))).
  { intros e k. unfold _str_lines.
    destruct (first_lines e) as [[e1 init] last].
    destruct (fold_left (place_word (tab_of e1) k)
                (Py.split (e_description e1)) (init, last, false))
      as [[a b] c]. reflexivity. }
  split.
  - intro Hs.
    assert (H1 : fst (fst (first_lines self))
                 = mkEntry (e_syntax self) (e_description self)
                     (Some (match e_tab self with
                            | Some t => t
                            | None => len (e_syntax self) + 4
                            end))).
    { unfold first_lines. rewrite Hs. simpl.
      destruct (_ >=? _); reflexivity. }
    split; [rewrite Hfst; exact H1|].
    rewrite Hfst, H1.
    set (t := match e_tab self with
              | Some t => t
              | None => len (e_syntax self) + 4
              end).
    unfold _str_lines, first_lines. simpl. rewrite Hs. simpl. fold t.
    destruct (t >=? len (e_syntax self) + 2); simpl;
      match goal with
      | |- context [fold_left ?f ?l ?s] =>
          destruct (fold_left f l s) as [[a b] c]
      end; reflexivity.
  - intro Hs. rewrite !Hfst. unfold first_lines. rewrite Hs. simpl.
    split; reflexivity.
Qed.

(** The entry ['set <k> <v>'] without a position, and the entry of the
    empty syntax. *)
Lemma X21_rendering_and_the_entry_witness :
  fst (_str_lines (mkEntry "set <k> <v>" "store a value" None) 0)
  = mkEntry "set <k> <v>" "store a value" (Some 15)
  /\ fst (_str_lines (mkEntry "" "show the state" (Some 15)) 0)
     = mkEntry "" "no command is given, show the state." (Some 0).
Proof.
  split.
  - apply (X21_rendering_and_the_entry
             (mkEntry "set <k> <v>" "store a value" None) 0 0). reflexivity.
  - apply (X21_rendering_and_the_entry
             (mkEntry "" "show the state" (Some 15)) 0 0). reflexivity.
Defined.

Lemma join_map_prefix (sep pre : string) (lines : list string) :
  lines <> [] ->
  pre ++ Py.join (sep ++ pre) lines
  = Py.join sep (map (fun l => pre ++ l) lines).
Proof.
  unfold Py.join. induction lines as [|x lines IH]; intro H; [contradiction|].
  destruct lines as [|y lines]; [reflexivity|].
  change (String.concat (sep ++ pre) (x :: y :: lines))
    with (x ++ (sep ++ pre) ++ String.concat (sep ++ pre) (y :: lines)).
  change (String.concat sep (map (fun l => pre ++ l) (x :: y :: lines)))
    with ((pre ++ x) ++ sep
            ++ String.concat sep (map (fun l => pre ++ l) (y :: lines))).
  rewrite <- IH by discriminate. rewrite !str_app_assoc. reflexivity.
Qed.

Lemma str_lines_not_nil (e : Entry) (k : Z) : snd (_str_lines e k) <> [].
Proof.
  unfold _str_lines. destruct (first_lines e) as [[e1 init] last].
  destruct (fold_left (place_word (tab_of e1) k)
              (Py.split (e_description e1)) (init, last, false))
    as [[a b] c]. simpl. destruct a; discriminate.
Qed.

Lemma help_entries_spec (cl : list Entry) :
  forall pos,
    let '(entries, out, no_command) := help_entries pos cl in
    entries = map (fun e => if has_syntax e then fst (indent e 2) else e) cl
    /\ out = map (fun e => snd (indent e 2) ++ LF) (filter has_syntax cl)
    /\ match no_command with
       | None => Forall (fun e => has_syntax e = true) cl
       | Some i =>
           exists l1 e l2,
             cl = (l1 ++ e :: l2)%list /\ i = (pos + length l1)%nat
             /\ has_syntax e = false
             /\ Forall (fun x => has_syntax x = true) l2
       end.
Proof.
  induction cl as [|e cl IH]; intro pos; simpl.
  - repeat split. constructor.
  - specialize (IH (S pos)).
    destruct (help_entries (S pos) cl) as [[entries out] nc].
    destruct IH as (I1 & I2 & I3). unfold has_syntax in *.
    destruct (Py.truthy (e_syntax e)) eqn:Hs.
    + destruct (indent e 2) as [e' text] eqn:Hi. simpl.
      rewrite ?Hi. simpl.
      split; [rewrite I1; reflexivity|]. split; [rewrite I2; reflexivity|].
      destruct nc as [i|].
      * destruct I3 as (l1 & x & l2 & -> & -> & Hx & Hl2).
        exists (e :: l1), x, l2. repeat split; auto; simpl; lia.
      * constructor; assumption.
    + split; [rewrite I1; reflexivity|]. split; [exact I2|].
      destruct nc as [i|].
      * destruct I3 as (l1 & x & l2 & -> & -> & Hx & Hl2).
        exists (e :: l1), x, l2. repeat split; auto; simpl; lia.
      * exists [], e, cl. repeat split; auto; simpl; lia.
Qed.

(** X22: what the help command prints.  After the header, one text for
    every entry with a syntax, in the order of the list: its lines, each
    after two blanks.  Then, when an entry has the empty syntax, the lines
    of the last such entry, and of no other.  *)
Theorem X22_help_lists_commands (cl : list Entry) :
  let out := snd (_help cl) in
  let listed :=
    map (fun e => indented 2 (snd (_str_lines e 0)) ++ LF)
      (filter has_syntax cl) in
  (Forall (fun e => has_syntax e = true) cl ->
   out = (("Available commands:" ++ LF)%string :: listed))
  /\ (forall l1 e l2,
         cl = (l1 ++ e :: l2)%list ->
         has_syntax e = false ->
         Forall (fun x => has_syntax x = true) l2 ->
         out = (("Available commands:" ++ LF)%string
                  :: listed
                  ++ [(Py.join LF (snd (_str_lines e 0)) ++ LF)%string])%list)
  /\ length (fst (_help cl)) = length cl.
Proof.
  intros out listed. subst out listed.
  assert (Hind : forall e, snd (indent e 2)
                           = indented 2 (snd (_str_lines e 0))).
  { intro e. unfold indent, indented.
    pose proof (str_lines_not_nil e 0) as Hne.
    destruct (_str_lines e 0) as [e1 lines]. cbn [snd] in *.
    apply join_map_prefix. exact Hne. }
  assert (Hout : map (fun e => snd (indent e 2) ++ LF) (filter has_syntax cl)
                 = map (fun e => indented 2 (snd (_str_lines e 0)) ++ LF)
                     (filter has_syntax cl)).
  { apply map_ext. intro e. rewrite Hind. reflexivity. }
  pose proof (help_entries_spec cl 0) as Hspec.
  unfold _help.
  destruct (help_entries 0 cl) as [[entries out] nc].
  destruct Hspec as (He & Ho & Hnc).
  assert (Hlen : length entries = length cl)
    by (rewrite He, length_map; reflexivity).
  split; [|split].
  - intro Hall. destruct nc as [i|].
    + exfalso. destruct Hnc as (l1 & e & l2 & -> & _ & Hx & _).
      rewrite Forall_forall in Hall.
      specialize (Hall e (in_elt e l1 l2)). congruence.
    + simpl. rewrite Ho, Hout. reflexivity.
  - intros l1 e l2 Hcl Hx Hl2. destruct nc as [i|].
    + destruct Hnc as (m1 & x & m2 & Hcl' & Hi & Hx' & Hm2).
      (* the two splits of the list are the same *)
      assert (Hsame : m1 = l1 /\ x = e).
      { rewrite Hcl in Hcl'. clear - Hcl' Hx Hl2 Hx' Hm2.
        revert m1 Hcl'. induction l1 as [|a l1 IH]; intros [|b m1] H;
          simpl in H; inversion H; subst.
        - split; reflexivity.
        - exfalso. rewrite Forall_forall in Hl2.
          specialize (Hl2 x (in_elt x m1 m2)). congruence.
        - exfalso. rewrite Forall_forall in Hm2.
          specialize (Hm2 e (in_elt e l1 l2)). congruence.
        - destruct (IH m1 H2) as [-> ->]. split; reflexivity. }
      destruct Hsame as [-> ->].
      assert (Hnth : nth_error entries i = Some e).
      { rewrite He, Hi, Hcl. simpl. rewrite map_app.
        rewrite nth_error_app2 by (rewrite length_map; lia).
        rewrite length_map, Nat.sub_diag. simpl. rewrite Hx. reflexivity. }
      rewrite Hnth. unfold Entry_str.
      destruct (_str_lines e 0) as [e' lines]. simpl.
      rewrite Ho, Hout. reflexivity.
    + exfalso. rewrite Hcl in Hnc. rewrite Forall_forall in Hnc.
      specialize (Hnc e (in_elt e l1 l2)). congruence.
  - destruct nc as [i|]; [|simpl; exact Hlen].
    destruct (nth_error entries i) as [e|]; [|simpl; exact Hlen].
    destruct (Entry_str e) as [e' text]. simpl.
    rewrite <- Hlen. clear. revert i.
    induction entries as [|y entries IH]; intros [|i]; simpl; auto.
Qed.

(** Two commands and the entry of the empty syntax between them. *)
Lemma X22_help_lists_commands_witness :
  snd (_help [mkEntry "go" "move on" (Some 8); mkEntry "" "wait" (Some 8);
              mkEntry "stop" "halt" (Some 8)])
  = [("Available commands:" ++ LF)%string;
     ("  go      move on" ++ LF)%string;
     ("  stop    halt" ++ LF)%string;
     ("If no command is given, wait." ++ LF)%string].
Proof.
  destruct (X22_help_lists_commands
              [mkEntry "go" "move on" (Some 8); mkEntry "" "wait" (Some 8);
               mkEntry "stop" "halt" (Some 8)]) as (_ & H & _).
  rewrite (H [mkEntry "go" "move on" (Some 8)] (mkEntry "" "wait" (Some 8))
             [mkEntry "stop" "halt" (Some 8)]).
  - reflexivity.
  - reflexivity.
  - reflexivity.
  - repeat constructor.
Defined.

(** ** More witnesses *)

(** The line ['  go  north '] and the blank line of two blanks. *)
Lemma X1_split_tokens_witness :
  Py.split "  go  north " <> [] /\ Py.split "  " = [].
Proof.
  split.
  - apply (X1_split_tokens "  go  north "). reflexivity.
  - reflexivity.
Defined.

(** The blank line of two blanks, and the line [' go north']. *)
Lemma X3_tokenize_blank_witness :
  tokenize "  " = ("", []) /\ is_token (fst (tokenize " go north")) = true.
Proof.
  split.
  - apply (X3_tokenize_blank "  "). reflexivity.
  - apply (X3_tokenize_blank " go north"). discriminate.
Defined.

(** Three errors, two of them with the same message. *)
Lemma X15_diagnostics_ranked_witness :
  badness (mkError (Redundant_ "a") "Redundant argument 'a'" 10001)
  <= badness (mkError (Redundant_ "a") "Redundant argument 'a'" 10002).
Proof.
  destruct (X15_diagnostics_ranked
              [mkError (Redundant_ "a") "Redundant argument 'a'" 10002;
               mkError (Redundant_ "b") "Redundant argument 'b'" 10000;
               mkError (Redundant_ "a") "Redundant argument 'a'" 10001])
    as (_ & _ & _ & _ & _ & H & _).
  apply H.
  - simpl. auto.
  - simpl. auto.
  - reflexivity.
Defined.


(** ** The handler is called exactly when the syntax matches *)

(** X23: the handler of a wrapper is called exactly when the command part
    accepts the command token and the parse of the user arguments logs no
    error; the call returns [True] exactly when, moreover, the handler
    raises nothing; and whether the handler is called does not depend on
    the application. *)
Theorem X23_handler_called_iff {Ctx : Type} (w : Wrapper Ctx) (ctx : Ctx)
    (cmd : string) (ua : list string) :
  let r := call w ctx cmd ua in
  (g_invoked r <> None
   <-> exists a, match_ (_command w) cmd = inl a
                 /\ g_logged (parse w a cmd ua) = [])
  /\ (outcome r = ReturnTrue
      <-> exists a, match_ (_command w) cmd = inl a
                    /\ g_logged (parse w a cmd ua) = []
                    /\ snd (_handler w ctx (resolved_args (parse w a cmd ua)))
                       = None)
  /\ (forall ctx', g_invoked (call w ctx' cmd ua) = g_invoked r).
Proof.
  intro r. subst r.
  assert (Hinv : forall c,
            g_invoked (call w c cmd ua)
            = match match_ (_command w) cmd with
              | inl a =>
                  match g_logged (parse w a cmd ua) with
                  | [] => Some (resolved_args (parse w a cmd ua))
                  | _ :: _ => None
                  end
              | inr _ => None
              end).
  { intro c. unfold call.
    destruct (match_ (_command w) cmd) as [a|e]; [|reflexivity].
    pose proof (parse_Rep w a cmd ua) as HR.
    pose proof (Rep_none _ HR) as Hn.
    destruct (run_handler_cases w c (parse w a cmd ua))
      as [[Hne ->]|[H0 [c' [[_ ->]|[e [_ ->]]]]]];
      rewrite (proj1 (conclude_fields _ _ _ _)).
    - destruct (g_logged (parse w a cmd ua)); [|reflexivity].
      exfalso. apply Hne, Hn. reflexivity.
    - rewrite (proj1 Hn H0). reflexivity.
    - rewrite (proj1 Hn H0). reflexivity. }
  split; [|split].
  - rewrite Hinv. destruct (match_ (_command w) cmd) as [a|e].
    + destruct (g_logged (parse w a cmd ua)) eqn:Hl.
      * split; [intros _; exists a; split; [reflexivity | exact Hl]
               | discriminate].
      * split; [intro H; contradiction|].
        intros (a' & Ha & Hl'). inversion Ha; subst. congruence.
    + split; [intro H; contradiction|].
      intros (a' & Ha & _). discriminate.
  - unfold call. destruct (match_ (_command w) cmd) as [a|e].
    + pose proof (parse_Rep w a cmd ua) as HR.
      pose proof (Rep_none _ HR) as Hn.
      unfold run_handler.
      destruct (self_first_exception (parse w a cmd ua)) as [e0|] eqn:H0.
      * rewrite conclude_outcome, H0. split; [discriminate|].
        intros (a' & Ha & Hl & _). inversion Ha; subst.
        apply Hn in Hl. discriminate.
      * destruct (_handler w ctx (resolved_args (parse w a cmd ua)))
          as [c' [e|]] eqn:Hh; rewrite conclude_outcome.
        -- simpl. rewrite H0. split; [discriminate|].
           intros (a' & Ha & _ & Hs). inversion Ha; subst.
           rewrite Hh in Hs. discriminate.
        -- rewrite H0. split; [|reflexivity].
           intros _. exists a. split; [reflexivity|].
           split; [apply Hn; reflexivity | rewrite Hh; reflexivity].
    + simpl. split; [discriminate|]. intros (a' & Ha & _). discriminate.
  - intro ctx'. rewrite !Hinv. reflexivity.
Qed.

(** The wrapper of ['set <k> <v>'] on ['set a b']. *)
Lemma X23_handler_called_iff_witness :
  g_invoked (call (bind "set <k> <v>" accept) tt "set" ["a"; "b"]) <> None.
Proof.
  apply (X23_handler_called_iff (bind "set <k> <v>" accept) tt "set"
           ["a"; "b"]).
  exists (mkArgument "set" None). split; reflexivity.
Defined.
